(** * SevaStream: the recurring payment stream engine

    A shallow embedding of the stream engine of the SevaStream
    micro-donation platform, and the properties of it that the
    specification states.

    Embedded sources:
    - [frontend/src/hooks/useX402.ts]: the [useX402] hook, which owns the
      list of payment streams, starts and stops them, runs their ticks and
      computes their statistics and fees (module [UseX402]);
    - the donor portal component ([DonorPortal], a source file of the
      frontend), which starts and stops streams through the hook and has
      a fee helper of its own (module [DonorPortal]);
    - [frontend/src/components/USDCBalanceDemo.tsx]: the fee helper of the
      aid request form (module [USDCBalanceDemo]);
    - [backend/src/services/socketService.ts]: the registry of donation
      streams of the socket server (module [SocketService]).

    Numbers. A JavaScript [number] that the callers supply (an amount, an
    interval) is a finite binary64 number and is modelled by its exact
    value, a rational of [Q]; a timestamp of [Date.now()] is an integer of
    [Z].  The sums that the hook accumulates, [stream.totalSent + amount]
    and the [reduce] of [getTotalStreamAmount], are rounded as the
    operator [+] rounds them (module [Binary64]), so the literal [0.1]
    added ten times gives [0.9999999999999999] and not [1].  The other
    operations (the products and quotients of the timer delay, of the
    statistics and of the fee helpers) are taken exactly.  The signed
    zero, calls with [NaN] or an infinity as an argument, and sums that
    leave the finite range of binary64 (from about [1.8e308] on) are
    outside the model.  A division is the one operation of the engine
    that takes finite numbers to a non-finite one, so the numbers derived
    by division (the statistics of a stream) are of the type [number],
    which adds the two infinities and [NaN] to [Q]. *)

From Stdlib Require Import QArith Qabs Qround Qminmax Qpower Lqa.
From stdpp Require Import base option list strings pretty gmap.

Local Close Scope Q_scope.

(** ** JavaScript numbers derived by division *)

Module JsNumber.

Inductive number : Type :=
  | Num (q : Q)
  | PosInf
  | NegInf
  | NaN.

Definition Qis_zero (q : Q) : bool := Qeq_bool q 0.
Definition Qis_neg (q : Q) : bool := negb (Qle_bool 0 q).

(** [x / y] on finite operands: a zero divisor gives an infinity of the
    sign of the dividend, or [NaN] for [0 / 0]. *)
Definition div_finite (p q : Q) : number :=
  if Qis_zero q then
    if Qis_zero p then NaN else if Qis_neg p then NegInf else PosInf
  else Num (p / q).

Definition negate (x : number) : number :=
  match x with
  | Num q => Num (- q)
  | PosInf => NegInf
  | NegInf => PosInf
  | NaN => NaN
  end.

(** The operator [/]. *)
Definition div (x y : number) : number :=
  match x, y with
  | NaN, _ | _, NaN => NaN
  | Num p, Num q => div_finite p q
  | Num _, (PosInf | NegInf) => Num 0
  | (PosInf | NegInf), (PosInf | NegInf) => NaN
  | PosInf, Num q => if Qis_neg q then NegInf else PosInf
  | NegInf, Num q => if Qis_neg q then PosInf else NegInf
  end.

(** The operator [*]. *)
Definition mul (x y : number) : number :=
  match x, y with
  | NaN, _ | _, NaN => NaN
  | Num p, Num q => Num (p * q)
  | Num p, (PosInf | NegInf) =>
      if Qis_zero p then NaN else if Qis_neg p then negate y else y
  | (PosInf | NegInf), Num q =>
      if Qis_zero q then NaN else if Qis_neg q then negate x else x
  | PosInf, PosInf | NegInf, NegInf => PosInf
  | PosInf, NegInf | NegInf, PosInf => NegInf
  end.

(** [Math.floor]. *)
Definition floor (x : number) : number :=
  match x with
  | Num q => Num (inject_Z (Qfloor q))
  | _ => x
  end.

(** The operator [>]: every comparison with [NaN] is false. *)
Definition gt (x y : number) : bool :=
  match x, y with
  | NaN, _ | _, NaN => false
  | Num p, Num q => negb (Qle_bool p q)
  | PosInf, (Num _ | NegInf) => true
  | Num _, NegInf => true
  | _, _ => false
  end.

End JsNumber.

(** ** Sums of JavaScript numbers

    A finite binary64 number is [m × 2^e] for integers [m] and [e] with
    [|m| < 2^53] and [-1074 ≤ e ≤ 971].  The operator [+] gives the
    binary64 number that is nearest to the exact sum of its operands, and
    of two that are equally near the one with the even [m] (IEEE 754,
    round to nearest, ties to even).  The upper bound of [e] is left out
    here: a sum beyond the largest finite number, which the operator
    takes to an infinity, is outside the model. *)

Module Binary64.

Definition precision : Z := 53.
Definition emin : Z := -1074.

Definition representable (x : Q) : Prop :=
  ∃ m e : Z,
    (emin <= e)%Z ∧ (Z.abs m < 2 ^ precision)%Z
    ∧ (x == inject_Z m * 2 ^ e)%Q.

(** The integer [l] with [2^l ≤ v < 2^(l+1)], for a positive [v]. *)
Definition ilog2 (v : Q) : Z :=
  if Qle_bool 1 v then Z.log2 (Qfloor v)
  else (- Z.log2_up (Qceiling (/ v)))%Z.

(** The exponent [e] of the binary64 numbers [m × 2^e] around a positive
    [v]: the one that gives [m] its 53 bits, and [-1074] for the
    subnormal numbers. *)
Definition exponent (v : Q) : Z := Z.max (ilog2 v - (precision - 1)) emin.

(** The integer nearest to [s], the even one of two. *)
Definition nearest_even (s : Q) : Z :=
  let k := Qfloor s in
  match (s - inject_Z k ?= 1 # 2)%Q with
  | Lt => k
  | Gt => (k + 1)%Z
  | Eq => if Z.even k then k else (k + 1)%Z
  end.

Definition round_pos (v : Q) : Q :=
  let e := exponent v in
  (inject_Z (nearest_even (v * 2 ^ (- e))) * 2 ^ e)%Q.

(** The binary64 number of an exact value, as a reduced fraction. *)
Definition round (q : Q) : Q :=
  Qred match (q ?= 0)%Q with
       | Eq => 0%Q
       | Gt => round_pos q
       | Lt => (- round_pos (- q))%Q
       end.

(** The operators [+] and [*] on finite numbers. *)
Definition add (x y : Q) : Q := round (x + y).
Definition mul (x y : Q) : Q := round (x * y).

End Binary64.

(** ** The hook [useX402] *)

Module UseX402.

Import JsNumber.

Record X402PaymentRequest : Type := {
  req_amount : Q;
  req_currency : string;
  req_recipient : string;
  req_memo : option string;
  req_streamId : option string
}.

Record Receipt : Type := {
  rc_amount : Q;
  rc_currency : string;
  rc_timestamp : Z;
  rc_recipient : string;
  rc_sender : string
}.

Record X402PaymentResponse : Type := {
  success : bool;
  transactionId : option string;
  error : option string;
  receipt : option Receipt
}.

(** The interface [X402Stream], with the property [intervalId] that
    [startPaymentStream] attaches to the object ([None]: not set). *)
Record X402Stream : Type := {
  id : string;
  amount : Q;
  interval : Q;
  recipient : string;
  isActive : bool;
  totalSent : Q;
  startTime : Z;
  intervalId : option positive
}.

(** The object spreads of the source: [{ ...stream, totalSent: v }] and
    [{ ...s, isActive: false }] copy every property, [intervalId]
    included, and replace one. *)
Definition with_totalSent (v : Q) (s : X402Stream) : X402Stream :=
  {| id := id s; amount := amount s; interval := interval s;
     recipient := recipient s; isActive := isActive s; totalSent := v;
     startTime := startTime s; intervalId := intervalId s |}.

Definition with_isActive (b : bool) (s : X402Stream) : X402Stream :=
  {| id := id s; amount := amount s; interval := interval s;
     recipient := recipient s; isActive := b; totalSent := totalSent s;
     startTime := startTime s; intervalId := intervalId s |}.

Definition with_intervalId (k : positive) (s : X402Stream) : X402Stream :=
  {| id := id s; amount := amount s; interval := interval s;
     recipient := recipient s; isActive := isActive s;
     totalSent := totalSent s; startTime := startTime s;
     intervalId := Some k |}.

(** The variables that the callback of [setInterval] in
    [startPaymentStream] closes over. *)
Record Tick : Type := {
  tk_amount : Q;
  tk_recipient : string;
  tk_streamId : string
}.

(** A repeating timer: its callback and its delay in milliseconds. *)
Record Interval : Type := {
  callback : Tick;
  delay : Q
}.

(** The state that the hook and the browser hold between two events:
    the two React states, the live timers of [setInterval] with the next
    free timer id, and the ticks suspended at the [await] of
    [processPayment]. *)
Record World : Type := {
  activeStreams : list X402Stream;
  isProcessing : bool;
  timers : gmap positive Interval;
  nextIntervalId : positive;
  inflight : list Tick
}.

Definition initial : World :=
  {| activeStreams := []; isProcessing := false; timers := ∅;
     nextIntervalId := 1%positive; inflight := [] |}.

Definition set_activeStreams (l : list X402Stream) (w : World) : World :=
  {| activeStreams := l; isProcessing := isProcessing w;
     timers := timers w; nextIntervalId := nextIntervalId w;
     inflight := inflight w |}.

Definition set_isProcessing (b : bool) (w : World) : World :=
  {| activeStreams := activeStreams w; isProcessing := b;
     timers := timers w; nextIntervalId := nextIntervalId w;
     inflight := inflight w |}.

Definition set_timers (t : gmap positive Interval) (n : positive)
    (w : World) : World :=
  {| activeStreams := activeStreams w; isProcessing := isProcessing w;
     timers := t; nextIntervalId := n; inflight := inflight w |}.

Definition set_inflight (l : list Tick) (w : World) : World :=
  {| activeStreams := activeStreams w; isProcessing := isProcessing w;
     timers := timers w; nextIntervalId := nextIntervalId w;
     inflight := l |}.

(** *** Effects

    A computation reads and writes the [World], prints lines on the
    console and returns a value.  The source has no [throw]; the two
    [catch] clauses are modelled where they stand. *)

Definition Eff (A : Type) : Type := World → A * World * list string.

Definition value {A} (r : A * World * list string) : A := r.1.1.
Definition world {A} (r : A * World * list string) : World := r.1.2.
Definition console {A} (r : A * World * list string) : list string := r.2.

Definition pure {A} (a : A) : Eff A := λ w, (a, w, []).

Definition bind {A B} (m : Eff A) (f : A → Eff B) : Eff B :=
  λ w, let r1 := m w in
       let r2 := f (value r1) (world r1) in
       (value r2, world r2, console r1 ++ console r2).

Notation "'let!' x := m 'in' k" := (bind m (λ x, k))
  (at level 10, x name, m at level 100, k at level 200).
Notation "m >> k" := (bind m (λ _, k))
  (at level 100, k at level 200, right associativity).

Definition modify (f : World → World) : Eff unit := λ w, (tt, f w, []).

(** [setActiveStreams(prev => f(prev))]: a functional update.  React
    applies the queued updates in their order before the state is read
    again, so the update is applied where it is queued. *)
Definition setActiveStreams
    (f : list X402Stream → list X402Stream) : Eff unit :=
  modify (λ w, set_activeStreams (f (activeStreams w)) w).

Definition setIsProcessing (b : bool) : Eff unit :=
  modify (set_isProcessing b).

(** [setInterval(callback, delay)] registers a timer under a new id. *)
Definition setInterval (cb : Tick) (ms : Q) : Eff positive :=
  λ w, let k := nextIntervalId w in
       (k,
        set_timers (<[k := {| callback := cb; delay := ms |}]> (timers w))
          (Pos.succ k) w,
        []).

(** [clearInterval(id)]: nothing happens when no such timer is live. *)
Definition clearInterval (k : positive) : Eff unit :=
  modify (λ w, set_timers (delete k (timers w)) (nextIntervalId w) w).

Definition console_log (label detail : string) : Eff unit :=
  λ w, (tt, w, [label +:+ " " +:+ detail]).

Definition console_error (label detail : string) : Eff unit :=
  λ w, (tt, w, [label +:+ " " +:+ detail]).

(** *** [processPayment]

    The call runs up to its [await] when it is made and resumes when the
    awaited promise settles.  What the [try] block does after the [await]
    is given by the environment: it completes, with the values of
    [Date.now()] and of the random suffix that it read, or it throws. *)

Inductive Outcome : Type :=
  | Resolved (now_id : Z) (rnd : string) (now_receipt : Z)
  | Threw.

Definition processPayment_begin : Eff unit := setIsProcessing true.

Definition processPayment_resume (request : X402PaymentRequest)
    (o : Outcome) : Eff X402PaymentResponse :=
  match o with
  | Resolved now_id rnd now_receipt =>
      let txid := "x402_" +:+ pretty now_id +:+ "_" +:+ rnd in
      let response :=
        {| success := true;
           transactionId := Some txid;
           error := None;
           receipt := Some {| rc_amount := req_amount request;
                              rc_currency := req_currency request;
                              rc_timestamp := now_receipt;
                              rc_recipient := req_recipient request;
                              rc_sender := "user_wallet_address" |} |} in
      console_log "x402 Payment processed:" txid >>
      setIsProcessing false >>
      pure response
  | Threw =>
      console_error "x402 payment failed:" "Error" >>
      setIsProcessing false >>
      pure {| success := false; transactionId := None;
              error := Some "Payment processing failed";
              receipt := None |}
  end.

(** *** [startPaymentStream] *)

Definition streamId_of (now : Z) (rnd : string) : string :=
  "stream_" +:+ pretty now +:+ "_" +:+ rnd.

(** The callback of the timer, up to the [await]. *)
Definition tick_begin (t : Tick) : Eff unit :=
  processPayment_begin >>
  modify (λ w, set_inflight (inflight w ++ [t]) w).

Definition tick_request (t : Tick) : X402PaymentRequest :=
  {| req_amount := tk_amount t;
     req_currency := "INR";
     req_recipient := tk_recipient t;
     req_memo := Some ("Stream payment " +:+ tk_streamId t);
     req_streamId := Some (tk_streamId t) |}.

Definition credit (t : Tick) (prev : list X402Stream) : list X402Stream :=
  (λ stream,
     if bool_decide (id stream = tk_streamId t)
     then with_totalSent (Binary64.add (totalSent stream) (tk_amount t))
            stream
     else stream) <$> prev.

(** The callback of the timer, from the [await] on. *)
Definition tick_resume (t : Tick) (o : Outcome) : Eff unit :=
  let! payment := processPayment_resume (tick_request t) o in
  if success payment then setActiveStreams (credit t) else pure tt.

(** The values that one call of [startPaymentStream] reads from the
    environment: [Date.now()] and the random suffix for the stream id,
    and [Date.now()] for [startTime]. *)
Record StartEnv : Type := {
  now_id : Z;
  rnd : string;
  now_start : Z
}.

(** The parameter [intervalSeconds] has the default value 10.  The
    object [newStream] is appended to the list and is then given its
    [intervalId]: the list holds the object itself, so the assignment
    shows in the element at the index where it was appended.  No
    statement of the [try] block can throw, so the [catch] clause, which
    returns [null], is never entered and the result is the stream id. *)
Definition startPaymentStream (amount : Q) (recipient : string)
    (intervalSeconds : option Q) (env : StartEnv) : Eff (option string) :=
  let intervalSeconds := default 10%Q intervalSeconds in
  let streamId := streamId_of (now_id env) (rnd env) in
  let newStream :=
    {| id := streamId; amount := amount; interval := intervalSeconds;
       recipient := recipient; isActive := true; totalSent := 0%Q;
       startTime := now_start env; intervalId := None |} in
  let! at_index := (λ w, (length (activeStreams w), w, [])) in
  setActiveStreams (λ prev, prev ++ [newStream]) >>
  let! k := setInterval
        {| tk_amount := amount; tk_recipient := recipient;
           tk_streamId := streamId |}
        (intervalSeconds * 1000)%Q in
  setActiveStreams (alter (with_intervalId k) at_index) >>
  console_log "x402 Payment stream started:" streamId >>
  pure (Some streamId).

(** *** [stopPaymentStream] *)

Definition has_id (streamId : string) (s : X402Stream) : bool :=
  bool_decide (id s = streamId).

Definition deactivate (streamId : string)
    (prev : list X402Stream) : list X402Stream :=
  (λ s, if bool_decide (id s = streamId) then with_isActive false s else s)
    <$> prev.

(** The update function clears the timer of the first stream with the
    id, when there is one and its [intervalId] is truthy (a timer id is a
    positive integer), and marks every stream with the id as not
    active. *)
Definition stopPaymentStream (streamId : string) : Eff unit :=
  let! prev := (λ w, (activeStreams w, w, [])) in
  match find (has_id streamId) prev with
  | Some stream =>
      match intervalId stream with
      | Some k => clearInterval k
      | None => pure tt
      end
  | None => pure tt
  end >>
  setActiveStreams (deactivate streamId) >>
  console_log "x402 Payment stream stopped:" streamId.

(** *** [getStreamStats] and the other readers *)

Record StreamStats : Type := {
  st_streamId : string;
  st_runtime : Q;
  st_totalSent : Q;
  st_expectedPayments : number;
  st_actualPayments : number;
  st_successRate : number;
  st_isActive : bool
}.

(** [now] is the value of [Date.now()]; the result [None] is [null]. *)
Definition getStreamStats (streamId : string) (now : Z)
    (w : World) : option StreamStats :=
  match find (has_id streamId) (activeStreams w) with
  | None => None
  | Some stream =>
      let runtime := (now - startTime stream)%Z in
      let expectedPayments :=
        floor (div_finite (inject_Z runtime) (interval stream * 1000)%Q) in
      let actualPayments :=
        div_finite (totalSent stream) (amount stream) in
      Some {| st_streamId := streamId;
              st_runtime := (inject_Z runtime / 1000)%Q;
              st_totalSent := totalSent stream;
              st_expectedPayments := expectedPayments;
              st_actualPayments := actualPayments;
              st_successRate :=
                if gt expectedPayments (Num 0)
                then mul (div actualPayments expectedPayments) (Num 100)
                else Num 0;
              st_isActive := isActive stream |}
  end.

Definition calculateX402Fee (amount : Q) : Q :=
  Qmax 0.01 (amount * 0.001)%Q.

Definition getAllStreams (w : World) : list X402Stream :=
  filter (λ stream, isActive stream = true) (activeStreams w).

Definition getTotalStreamAmount (w : World) : Q :=
  foldl (λ total stream, Binary64.add total (amount stream)) 0%Q
    (filter (λ stream, isActive stream = true) (activeStreams w)).

(** *** Events

    What happens to the hook, one event at a time: a caller starts or
    stops a stream, a live timer fires, or the payment of a suspended
    tick settles.  Time is not modelled: a live timer may fire at any
    moment, and a payment may settle at any moment after its tick
    began. *)

Inductive Event : Type :=
  | CallStart (amount : Q) (recipient : string)
      (intervalSeconds : option Q) (env : StartEnv)
  | CallStop (streamId : string)
  | TimerFires (k : positive)
  | PaymentSettles (i : nat) (o : Outcome).

Definition dispatch (e : Event) : Eff unit :=
  match e with
  | CallStart amount recipient intervalSeconds env =>
      startPaymentStream amount recipient intervalSeconds env >> pure tt
  | CallStop streamId => stopPaymentStream streamId
  | TimerFires k =>
      λ w, match timers w !! k with
           | Some t => tick_begin (callback t) w
           | None => pure tt w
           end
  | PaymentSettles i o =>
      λ w, match inflight w !! i with
           | Some t =>
               (modify (λ w, set_inflight (delete i (inflight w)) w) >>
                tick_resume t o) w
           | None => pure tt w
           end
  end.

Definition step (w : World) (e : Event) : World := world (dispatch e w).

Definition exec (w : World) (trace : list Event) : World :=
  foldl step w trace.

End UseX402.

(** ** The donor portal

    The component starts and stops streams through the hook and shows the
    fee of a donation before the stream starts.  It does not take
    [calculateX402Fee] from the hook: it declares a helper of the same
    name. *)

Module DonorPortal.

Definition calculateX402Fee (amount : Q) : Q := (amount * 0.001)%Q.

(** The fee and the total that [handleStartStream] logs and shows for the
    parsed amount. *)
Definition totalAmount (amount : Q) : Q :=
  (amount + calculateX402Fee amount)%Q.

End DonorPortal.

(** ** The aid request form of [USDCBalanceDemo.tsx] *)

Module USDCBalanceDemo.

Definition calculateFx02Fee (amount : Q) : Q := (amount * 0.02)%Q.

End USDCBalanceDemo.

(** ** The socket service of the backend *)

Module SocketService.

(** The type of the field [status]. *)
Inductive Status : Type := active | paused | completed.

Record DonationStream : Type := {
  id : string;
  donor : string;
  recipient : string;
  amount : Q;
  cause : string;
  status : Status;
  startTime : Z
}.

(** The module-level [Map<string, DonationStream>], in insertion order:
    [set] on a key of the map replaces the value where it stands, and
    [delete] leaves no entry under the key. *)
Definition Registry : Type := list (string * DonationStream).

Fixpoint map_get (k : string) (m : Registry) : option DonationStream :=
  match m with
  | [] => None
  | (k', v) :: m' => if bool_decide (k' = k) then Some v else map_get k m'
  end.

Fixpoint map_set (k : string) (v : DonationStream)
    (m : Registry) : Registry :=
  match m with
  | [] => [(k, v)]
  | (k', v') :: m' =>
      if bool_decide (k' = k) then (k, v) :: m'
      else (k', v') :: map_set k v m'
  end.

Fixpoint map_delete (k : string) (m : Registry) : Registry :=
  match m with
  | [] => []
  | (k', v') :: m' =>
      if bool_decide (k' = k) then map_delete k m'
      else (k', v') :: map_delete k m'
  end.

Definition map_values (m : Registry) : list DonationStream := m.*2.

(** What the server sends: the name of the event is the constructor. *)
Inductive Message : Type :=
  | activeStreams (streams : list DonationStream)
  | newDonationStream (stream : DonationStream)
  | streamStarted (streamId : string) (st : Status)
  | donationStreamCompleted (stream : DonationStream)
  | streamStopped (streamId : string) (st : Status)
  | realTimeDonation (type streamId : string) (amount : Q)
      (txHash : string) (timestamp : Z)
  | urgentNeed (needId title location urgency : string) (amount : Q)
      (timestamp : Z).

(** [io.emit] reaches every client, [socket.emit] the one client. *)
Inductive Emit : Type :=
  | io_emit (m : Message)
  | socket_emit (socket : string) (m : Message).

(** What a client [socket] sends to the server; [now] is the value of
    [new Date()] in the handler.  (The broadcasts of the demo activity
    and of [broadcastDonationUpdate] do not read or write the registry
    and are left out.) *)
Inductive ClientEvent : Type :=
  | connection
  | startDonationStream (streamId donor recipient : string) (amount : Q)
      (cause : string) (now : Z)
  | stopDonationStream (streamId : string)
  | donationEvent (type streamId : string) (amount : Q) (txHash : string)
      (now : Z)
  | urgentNeedAlert (needId title location urgency : string) (amount : Q)
      (now : Z)
  | disconnect (reason : string).

(** The handlers that [initializeSocket] registers.  In the handler of
    [stopDonationStream] the object that is broadcast is the object of
    the map, after its [status] was assigned. *)
Definition handle (socket : string) (e : ClientEvent)
    (reg : Registry) : Registry * list Emit :=
  match e with
  | connection =>
      (reg, [socket_emit socket (activeStreams (map_values reg))])
  | startDonationStream streamId donor recipient amount cause now =>
      let stream :=
        {| id := streamId; donor := donor; recipient := recipient;
           amount := amount; cause := cause; status := active;
           startTime := now |} in
      (map_set streamId stream reg,
       [io_emit (newDonationStream stream);
        socket_emit socket (streamStarted streamId active)])
  | stopDonationStream streamId =>
      match map_get streamId reg with
      | Some stream =>
          let stream :=
            {| id := id stream; donor := donor stream;
               recipient := recipient stream; amount := amount stream;
               cause := cause stream; status := completed;
               startTime := startTime stream |} in
          (map_delete streamId reg,
           [io_emit (donationStreamCompleted stream);
            socket_emit socket (streamStopped streamId completed)])
      | None => (reg, [])
      end
  | donationEvent type streamId amount txHash now =>
      (reg, [io_emit (realTimeDonation type streamId amount txHash now)])
  | urgentNeedAlert needId title location urgency amount now =>
      (reg,
       [io_emit (urgentNeed needId title location urgency amount now)])
  | disconnect _ => (reg, [])
  end.

End SocketService.

(** ** Runs of the hook

    The vocabulary in which the properties of the hook are stated: the
    world after a sequence of events, the sequences in which every stream
    id that [startPaymentStream] generates is a new one, the number of
    payments credited to a stream, and the invariants of the worlds that
    such sequences reach. *)

Module Run.

Import UseX402.

Definition ids (w : World) : list string := id <$> activeStreams w.

(** The stream that [startPaymentStream] leaves in the list, and the
    closure of its timer. *)
Definition new_stream (amount : Q) (recipient : string)
    (intervalSeconds : option Q) (env : StartEnv)
    (k : positive) : X402Stream :=
  {| id := streamId_of (now_id env) (rnd env); amount := amount;
     interval := default 10%Q intervalSeconds; recipient := recipient;
     isActive := true; totalSent := 0%Q; startTime := now_start env;
     intervalId := Some k |}.

Definition new_tick (amount : Q) (recipient : string)
    (env : StartEnv) : Tick :=
  {| tk_amount := amount; tk_recipient := recipient;
     tk_streamId := streamId_of (now_id env) (rnd env) |}.

(** The timers that [stopPaymentStream] leaves. *)
Definition timers_after_stop (streamId : string)
    (w : World) : gmap positive Interval :=
  match find (has_id streamId) (activeStreams w) with
  | Some stream =>
      match intervalId stream with
      | Some k => delete k (timers w)
      | None => timers w
      end
  | None => timers w
  end.

(** The environment gives [startPaymentStream] an id that no stream of
    the list has. *)
Definition admissible (w : World) (e : Event) : bool :=
  match e with
  | CallStart _ _ _ env =>
      bool_decide (streamId_of (now_id env) (rnd env) ∉ ids w)
  | _ => true
  end.

Fixpoint fresh_ids (w : World) (trace : list Event) : bool :=
  match trace with
  | [] => true
  | e :: trace' => admissible w e && fresh_ids (step w e) trace'
  end.

(** A successful tick of the stream: the payment of one of its ticks
    settles with [success: true]. *)
Definition credited (streamId : string) (w : World) (e : Event) : nat :=
  match e with
  | PaymentSettles i (Resolved _ _ _) =>
      match inflight w !! i with
      | Some t => if bool_decide (tk_streamId t = streamId) then 1 else 0
      | None => 0
      end
  | _ => 0
  end.

Fixpoint successCount (streamId : string) (w : World)
    (trace : list Event) : nat :=
  match trace with
  | [] => 0
  | e :: trace' =>
      credited streamId w e + successCount streamId (step w e) trace'
  end.

(** The [totalSent] that [n] successful ticks make of [sent]: each adds
    the amount, with the operator [+]. *)
Definition credits (amount : Q) (n : nat) (sent : Q) : Q :=
  Nat.iter n (λ sent, Binary64.add sent amount) sent.

(** The properties of a stream that no operation of the hook changes. *)
Definition same_stream (s' s : X402Stream) : Prop :=
  id s' = id s ∧ amount s' = amount s ∧ interval s' = interval s
  ∧ recipient s' = recipient s ∧ startTime s' = startTime s
  ∧ intervalId s' = intervalId s.

(** The stream [s] of the list is the one that the tick [t] pays for. *)
Definition tick_of (l : list X402Stream) (t : Tick)
    (s : X402Stream) : Prop :=
  s ∈ l ∧ id s = tk_streamId t ∧ amount s = tk_amount t.

Record consistent (w : World) : Prop := {
  ids_distinct : NoDup (ids w);
  timers_owned : ∀ k iv, timers w !! k = Some iv →
    ∃ s, tick_of (activeStreams w) (callback iv) s ∧ intervalId s = Some k;
  inflight_owned : ∀ t, t ∈ inflight w →
    ∃ s, tick_of (activeStreams w) t s;
  intervalIds_allocated : ∀ s k, s ∈ activeStreams w →
    intervalId s = Some k → (k < nextIntervalId w)%positive;
  stopped_cleared : ∀ s k, s ∈ activeStreams w → isActive s = false →
    intervalId s = Some k → timers w !! k = None
}.

(** The stream [streamId] was stopped: it is in the list, not active,
    and no live timer ticks for it. *)
Record cancelled (streamId : string) (w : World) : Prop := {
  cancelled_known : streamId ∈ ids w;
  cancelled_inactive : ∀ s, s ∈ activeStreams w → id s = streamId →
    isActive s = false;
  cancelled_timers : ∀ k iv, timers w !! k = Some iv →
    tk_streamId (callback iv) ≠ streamId
}.

(** No payment of the stream is in flight. *)
Definition settled (streamId : string) (w : World) : Prop :=
  ∀ t, t ∈ inflight w → tk_streamId t ≠ streamId.

End Run.

(** ** The formulas of the specification

    The fee policy and the statistics as the specification words them,
    to compare with what the source computes. *)

Module Spec.

(** [fee = max(minimumFee, amount × feeRate)] *)
Definition fee (minimumFee feeRate amount : Q) : Q :=
  Qmax minimumFee (amount * feeRate)%Q.



End Spec.

(** ** Scenarios *)

Module Scenario.

Import UseX402.

Definition env1 : StartEnv :=
  {| now_id := 1700000000000; rnd := "k3j9x0a1b";
     now_start := 1700000000000 |}.

Definition env2 : StartEnv :=
  {| now_id := 1700000000250; rnd := "p7q2m5n8c";
     now_start := 1700000000250 |}.

Definition id1 : string := "stream_1700000000000_k3j9x0a1b".
Definition id2 : string := "stream_1700000000250_p7q2m5n8c".

Definition paid (now : Z) : Outcome := Resolved now "t4u8v1w6x" now.

(** One tick of the timer [k] whose payment settles at once. *)
Definition tick (k : positive) (o : Outcome) : list Event :=
  [TimerFires k; PaymentSettles 0 o].

(** [startStream(amount=8, interval=10, recipient="cause-1")] and three
    ticks with an executor that always succeeds. *)
Definition three_paid_ticks : list Event :=
  CallStart 8 "cause-1" (Some 10%Q) env1
  :: tick 1 (paid 1700000011000) ++ tick 1 (paid 1700000021000)
  ++ tick 1 (paid 1700000031000).

(** [startStream(amount=10, interval=5, recipient="cause-2")] and three
    ticks with an executor that fails on the second. *)
Definition second_tick_fails : list Event :=
  CallStart 10 "cause-2" (Some 5%Q) env1
  :: tick 1 (paid 1700000006000) ++ tick 1 Threw
  ++ tick 1 (paid 1700000016000).

(** Two streams: every payment of the first fails, the payments of the
    second succeed. *)
Definition one_stream_fails : list Event :=
  [CallStart 8 "cause-1" (Some 10%Q) env1;
   CallStart 3 "cause-2" (Some 10%Q) env2;
   TimerFires 1; TimerFires 2;
   PaymentSettles 0 Threw; PaymentSettles 0 (paid 1700000011250);
   TimerFires 1; TimerFires 2;
   PaymentSettles 1 (paid 1700000021250); PaymentSettles 0 Threw].

(** Two calls of [startPaymentStream] to which the environment gives the
    same id, and a paid tick of the first stream. *)
Definition colliding_ids : list Event :=
  [CallStart 5 "cause-1" (Some 10%Q) env1;
   CallStart 7 "cause-2" (Some 10%Q) env1;
   TimerFires 1; PaymentSettles 0 (paid 1700000011000)].

(** A stream of a negative amount and one paid tick. *)
Definition negative_amount : list Event :=
  CallStart (-5) "cause-1" (Some 10%Q) env1 :: tick 1 (paid 1700000011000).

(** A tick begins, the stream is stopped, and the payment settles. *)
Definition stop_during_payment : list Event :=
  [CallStart 5 "cause-1" (Some 1%Q) env1; TimerFires 1; CallStop id1;
   PaymentSettles 0 (paid 1700000002000)].

(** A stream of the interval 10 that was paid once. *)
Definition paid_once : list Event :=
  CallStart 5 "cause-1" (Some 10%Q) env1 :: tick 1 (paid 1700000011000).


(** The numbers that the literals [0.1] and [0.2] denote. *)
Definition tenth : Q := Binary64.round 0.1.
Definition fifth : Q := Binary64.round 0.2.

(** [startStream(amount=0.1, interval=10, recipient="cause-1")] and ten
    ticks with an executor that always succeeds. *)
Definition ten_paid_ticks : list Event :=
  CallStart tenth "cause-1" (Some 10%Q) env1
  :: concat (replicate 10 (tick 1 (paid 1700000011000))).

(** Two streams, of the amounts 0.1 and 0.2. *)
Definition tenth_and_fifth : list Event :=
  [CallStart tenth "cause-1" (Some 10%Q) env1;
   CallStart fifth "cause-2" (Some 10%Q) env2].

(** The registry of the socket service with one active stream. *)
Definition one_donation : SocketService.Registry :=
  [("stream-1",
    {| SocketService.id := "stream-1"; SocketService.donor := "0xd0";
       SocketService.recipient := "cause-1"; SocketService.amount := 8;
       SocketService.cause := "Clean Water";
       SocketService.status := SocketService.active;
       SocketService.startTime := 1700000000000 |})].

End Scenario.

(** ** More of the runs of the hook *)

Module Ledger.

Import Stdlib.Strings.Ascii UseX402.

(** The timer that [startPaymentStream] registers for a stream. *)
Definition timer_of (s : X402Stream) : Interval :=
  {| callback := {| tk_amount := amount s; tk_recipient := recipient s;
                    tk_streamId := id s |};
     delay := (interval s * 1000)%Q |}.

(** Every active stream has its timer. *)
Definition ticking (w : World) : Prop :=
  ∀ s, s ∈ activeStreams w → isActive s = true →
    ∃ k, intervalId s = Some k ∧ timers w !! k = Some (timer_of s).

(** Every payment in flight is a call of the callback of the timer of a
    stream of the list. *)
Definition paying (w : World) : Prop :=
  ∀ t, t ∈ inflight w →
    ∃ s, s ∈ activeStreams w ∧ callback (timer_of s) = t.

(** The request that the tick of a stream sends to [processPayment]. *)
Definition request_of (s : X402Stream) : X402PaymentRequest :=
  {| req_amount := amount s; req_currency := "INR";
     req_recipient := recipient s;
     req_memo := Some ("Stream payment " +:+ id s);
     req_streamId := Some (id s) |}.

(** A string without the character that separates the parts of an id. *)
Fixpoint no_underscore (s : string) : Prop :=
  match s with
  | EmptyString => True
  | String c s' => c ≠ "_"%char ∧ no_underscore s'
  end.

(** The number of calls of [startPaymentStream] in a sequence of events. *)
Definition is_start (e : Event) : bool :=
  match e with
  | CallStart _ _ _ _ => true
  | _ => false
  end.

Definition starts (trace : list Event) : nat :=
  length (filter (λ e, is_start e = true) trace).

(** The number of payments of a stream that are in flight. *)
Definition pending (streamId : string) (w : World) : nat :=
  length (filter (λ t, tk_streamId t = streamId) (inflight w)).

(** The sum that [reduce] computes over the amounts of a list. *)
Definition total (l : list X402Stream) : Q :=
  foldl (λ total stream, Binary64.add total (amount stream)) 0%Q l.

End Ledger.

(** ** Runs of the socket service *)

Module Server.

Import SocketService.

Definition keys (reg : Registry) : list string := reg.*1.

(** The registry and what was sent after the events of the clients, each
    with the socket that it came from. *)
Fixpoint serve (reg : Registry) (events : list (string * ClientEvent))
    : Registry * list Emit :=
  match events with
  | [] => (reg, [])
  | (socket, e) :: rest =>
      let r := handle socket e reg in
      let r' := serve r.1 rest in
      (r'.1, r.2 ++ r'.2)
  end.

(** What [startDonationStream] registers. *)
Definition started (streamId donor recipient : string) (amount : Q)
    (cause : string) (now : Z) : DonationStream :=
  {| id := streamId; donor := donor; recipient := recipient;
     amount := amount; cause := cause; status := active; startTime := now |}.

(** The stream with the status that [stopDonationStream] assigns. *)
Definition as_completed (stream : DonationStream) : DonationStream :=
  {| id := id stream; donor := donor stream; recipient := recipient stream;
     amount := amount stream; cause := cause stream; status := completed;
     startTime := startTime stream |}.

(** Every entry of the registry is an active stream under its id, and no
    key occurs twice. *)
Definition well_kept (reg : Registry) : Prop :=
  NoDup (keys reg)
  ∧ ∀ k d, (k, d) ∈ reg → id d = k ∧ status d = active.

(** Two clients: the first starts two streams, the second connects, and
    the first stops its first stream. *)
Definition two_clients : list (string * ClientEvent) :=
  [("socket-1", connection);
   ("socket-1",
    startDonationStream "stream-1" "0xd0" "cause-1" 8 "Clean Water"
      1700000000000);
   ("socket-1",
    startDonationStream "stream-2" "0xd0" "cause-2" 3 "Education"
      1700000001000);
   ("socket-2", connection);
   ("socket-1", stopDonationStream "stream-1")].

End Server.

(** * Properties *)

Import UseX402 Run.

(** ** Rounding to binary64 *)

Section Rounding.

Import Binary64.

Local Open Scope Q_scope.

Lemma pow2_pos (e : Z) : 0 < 2 ^ e.
Proof. by apply Qpower_0_lt. Qed.

Lemma pow2_add (a b : Z) : 2 ^ (a + b) == 2 ^ a * 2 ^ b.
Proof. by apply Qpower_plus. Qed.

Lemma pow2_le (a b : Z) : (a <= b)%Z → 2 ^ a <= 2 ^ b.
Proof. intros H. by apply Qpower_le_compat_l. Qed.

Lemma pow2_Z (n : Z) : (0 <= n)%Z → 2 ^ n == inject_Z (2 ^ n).
Proof. intros H. by rewrite Zpower_Qpower. Qed.

Lemma pow2_cancel (e : Z) : 2 ^ e * 2 ^ (- e) == 1.
Proof. rewrite <- pow2_add. by rewrite Z.add_opp_diag_r. Qed.

Lemma ilog2_spec (v : Q) :
  0 < v → 2 ^ ilog2 v <= v ∧ v < 2 ^ (ilog2 v + 1).
Proof.
  intros Hv. unfold ilog2. destruct (Qle_bool 1 v) eqn:H1.
  - apply Qle_bool_iff in H1.
    assert (Hf : (1 <= Qfloor v)%Z).
    { change 1%Z with (Qfloor 1). by apply Qfloor_resp_le. }
    destruct (Z.log2_spec (Qfloor v)) as [Hlo Hhi]; [lia |].
    pose proof (Z.log2_nonneg (Qfloor v)) as Hnn.
    rewrite !pow2_Z by lia. split.
    + apply Qle_trans with (inject_Z (Qfloor v));
        [by rewrite <- Zle_Qle | apply Qfloor_le].
    + apply Qlt_le_trans with (inject_Z (Qfloor v + 1));
        [apply Qlt_floor |]. rewrite <- Zle_Qle.
      replace (Z.log2 (Qfloor v) + 1)%Z with (Z.succ (Z.log2 (Qfloor v)))
        by lia. lia.
  - assert (Hlt : v < 1).
    { apply Qnot_le_lt. intros Hle. apply Qle_bool_iff in Hle. congruence. }
    assert (Hinv : 0 < / v) by by apply Qinv_lt_0_compat.
    assert (Hone : v * / v == 1) by (apply Qmult_inv_r; lra).
    assert (Hw : 1 < / v) by nra.
    set (c := Qceiling (/ v)).
    assert (Hc : / v <= inject_Z c) by apply Qle_ceiling.
    assert (Hc' : inject_Z (c - 1) < / v) by apply Qceiling_lt.
    assert (Hc2 : (1 < c)%Z).
    { rewrite Zlt_Qlt. apply Qlt_le_trans with (/ v); done. }
    destruct (Z.log2_up_spec c Hc2) as [Hlo Hhi].
    pose proof (Z.log2_up_pos c Hc2) as Hk.
    set (k := Z.log2_up c) in *.
    split.
    + rewrite Qpower_opp, pow2_Z by lia.
      assert (inject_Z c <= inject_Z (2 ^ k)) by by rewrite <- Zle_Qle.
      pose proof (pow2_pos k) as Hp. rewrite pow2_Z in Hp by lia.
      apply Qle_shift_inv_r; [done |]. nra.
    + replace (- k + 1)%Z with (- (k - 1))%Z by lia.
      rewrite Qpower_opp, pow2_Z by lia.
      assert (inject_Z (2 ^ (k - 1)) <= inject_Z (c - 1)).
      { rewrite <- Zle_Qle. replace (k - 1)%Z with (Z.pred k) by lia. lia. }
      pose proof (pow2_pos (k - 1)) as Hp. rewrite pow2_Z in Hp by lia.
      apply Qlt_shift_inv_l; [done |]. nra.
Qed.

Lemma pow2_scale (x a : Q) (e : Z) : x == a * 2 ^ e ↔ x * 2 ^ (- e) == a.
Proof.
  pose proof (pow2_cancel e) as Hc. split; intros H.
  - rewrite H, <- Qmult_assoc, Hc. ring.
  - rewrite <- H, <- Qmult_assoc, (Qmult_comm (2 ^ (- e))), Hc. ring.
Qed.

Lemma nearest_even_bounds (s : Q) :
  (Qfloor s <= nearest_even s <= Qfloor s + 1)%Z.
Proof.
  unfold nearest_even.
  destruct (_ ?= _); [destruct (Z.even _) | |]; lia.
Qed.

Lemma nearest_even_Z (s : Q) (z : Z) : s == inject_Z z → nearest_even s = z.
Proof.
  intros Hs. unfold nearest_even.
  rewrite (Qfloor_comp _ _ Hs), Qfloor_Z.
  assert ((s - inject_Z z ?= 1 # 2) = Lt) as ->; [| done].
  rewrite <- Qlt_alt. lra.
Qed.

(** The scaled value of a positive number: below [2^53], and from
    [2^52] on when the exponent is not the least one. *)
Lemma scaled_bounds (v : Q) :
  0 < v →
  (emin <= exponent v)%Z
  ∧ 0 < v * 2 ^ (- exponent v)
  ∧ v * 2 ^ (- exponent v) < 2 ^ 53
  ∧ ((emin < exponent v)%Z → 2 ^ 52 <= v * 2 ^ (- exponent v)).
Proof.
  intros Hv. destruct (ilog2_spec v Hv) as [Hlo Hhi].
  unfold exponent, precision. set (l := ilog2 v) in *.
  set (e := Z.max (l - (53 - 1)) emin).
  pose proof (pow2_pos (- e)) as Hp.
  split; [lia |]. split; [nra |]. split.
  - apply Qlt_le_trans with (2 ^ (l + 1) * 2 ^ (- e)); [nra |].
    rewrite <- pow2_add. apply pow2_le. lia.
  - intros He. apply Qle_trans with (2 ^ l * 2 ^ (- e)); [| nra].
    rewrite <- pow2_add. apply pow2_le. lia.
Qed.

Lemma round_pos_spec (v : Q) :
  0 < v →
  ∃ m : Z,
    round_pos v = inject_Z m * 2 ^ exponent v
    ∧ (Qfloor (v * 2 ^ (- exponent v)) <= m
       <= Qfloor (v * 2 ^ (- exponent v)) + 1)%Z
    ∧ (0 <= m <= 2 ^ 53)%Z
    ∧ ((emin < exponent v)%Z → (2 ^ 52 <= m)%Z).
Proof.
  intros Hv. destruct (scaled_bounds v Hv) as (He & Hs0 & Hs & Hs').
  set (s := v * 2 ^ (- exponent v)) in *.
  exists (nearest_even s). split; [done |].
  pose proof (nearest_even_bounds s) as Hm. split; [done |].
  assert (H0 : (0 <= Qfloor s)%Z).
  { change 0%Z with (Qfloor 0). apply Qfloor_resp_le. lra. }
  assert (H53 : (Qfloor s < 2 ^ 53)%Z).
  { rewrite Zlt_Qlt. apply Qle_lt_trans with s; [apply Qfloor_le |].
    by rewrite <- pow2_Z. }
  split; [lia |]. intros Hlt.
  assert (H52 : (2 ^ 52 <= Qfloor s)%Z).
  { rewrite <- (Qfloor_Z (2 ^ 52)). apply Qfloor_resp_le.
    rewrite <- pow2_Z by done. auto. }
  lia.
Qed.

Lemma round_eq (q : Q) :
  round q ==
  match q ?= 0 with
  | Eq => 0
  | Gt => round_pos q
  | Lt => - round_pos (- q)
  end.
Proof. unfold round. apply Qred_correct. Qed.

Lemma round_zero (q : Q) : q == 0 → round q = 0.
Proof. intros Hq. unfold round. by rewrite Hq. Qed.

Lemma round_pos_eq (q : Q) : 0 < q → round q == round_pos q.
Proof.
  intros Hq. rewrite round_eq.
  assert ((q ?= 0) = Gt) as ->; [| done]. by rewrite <- Qgt_alt.
Qed.

Lemma round_neg_eq (q : Q) : q < 0 → round q == - round_pos (- q).
Proof.
  intros Hq. rewrite round_eq.
  assert ((q ?= 0) = Lt) as ->; [| done]. by rewrite <- Qlt_alt.
Qed.

Lemma round_pos_nonneg (v : Q) : 0 < v → 0 <= round_pos v.
Proof.
  intros Hv. destruct (round_pos_spec v Hv) as (m & -> & _ & Hm & _).
  pose proof (pow2_pos (exponent v)).
  assert (0 <= inject_Z m) by (rewrite <- (Zle_Qle 0); lia). nra.
Qed.

Lemma round_nonneg (q : Q) : 0 <= q → 0 <= round q.
Proof.
  intros Hq. destruct (Qlt_le_dec 0 q) as [Hpos | Hle].
  - rewrite round_pos_eq by done. by apply round_pos_nonneg.
  - rewrite round_zero by lra. lra.
Qed.

Lemma representable_0 : representable 0.
Proof. exists 0%Z, emin. split; [done |]. split; [done |]. ring. Qed.

Lemma representable_opp (x : Q) : representable x → representable (- x).
Proof.
  intros (m & e & He & Hm & Hx). exists (- m)%Z, e.
  split; [done |]. split; [lia |]. rewrite Hx, inject_Z_opp. ring.
Qed.

Lemma representable_comp (x y : Q) :
  x == y → representable x → representable y.
Proof. intros Hxy (m & e & He & Hm & Hx). exists m, e. by rewrite <- Hxy. Qed.

Lemma round_pos_representable (v : Q) : 0 < v → representable (round_pos v).
Proof.
  intros Hv. destruct (round_pos_spec v Hv) as (m & -> & _ & Hm & _).
  destruct (scaled_bounds v Hv) as (He & _).
  destruct (decide (m = 2 ^ 53)%Z) as [-> | Hne].
  - exists (2 ^ 52)%Z, (exponent v + 1)%Z.
    split; [lia |]. split; [done |].
    rewrite pow2_add.
    change (inject_Z (2 ^ 53)) with (inject_Z (2 ^ 52) * 2 ^ 1).
    ring.
  - exists m, (exponent v). split; [done |]. split; [| done].
    unfold precision. lia.
Qed.

Lemma round_representable (q : Q) : representable (round q).
Proof.
  destruct (Q_dec q 0) as [[Hneg | Hpos] | Hz].
  - apply (representable_comp (- round_pos (- q)));
      [by rewrite round_neg_eq |].
    apply representable_opp, round_pos_representable. lra.
  - apply (representable_comp (round_pos q)); [by rewrite round_pos_eq |].
    by apply round_pos_representable.
  - rewrite round_zero by done. apply representable_0.
Qed.

(** Rounding does not go below a representable number that the exact
    value is not below. *)
Lemma round_pos_ge (x v : Q) (mx ex : Z) :
  (emin <= ex)%Z → (0 < mx < 2 ^ 53)%Z → x == inject_Z mx * 2 ^ ex →
  x <= v → x <= round_pos v.
Proof.
  intros Hex Hmx Hx Hxv.
  assert (Hxpos : 0 < x).
  { rewrite Hx. pose proof (pow2_pos ex).
    assert (0 < inject_Z mx) by (rewrite <- (Zlt_Qlt 0); lia). nra. }
  assert (Hv : 0 < v) by lra.
  destruct (round_pos_spec v Hv) as (m & -> & Hfl & Hm & Hnormal).
  set (e := exponent v) in *. pose proof (pow2_pos e) as Hpe.
  pose proof (pow2_pos (- e)) as Hpne.
  destruct (decide (e <= ex)%Z) as [Hle | Hgt].
  - (* [x] is a multiple of the unit of the result *)
    set (I := (mx * 2 ^ (ex - e))%Z).
    assert (HI : x == inject_Z I * 2 ^ e).
    { rewrite Hx. unfold I. rewrite inject_Z_mult, <- pow2_Z by lia.
      rewrite <- Qmult_assoc, <- pow2_add.
      by replace (ex - e + e)%Z with ex by lia. }
    assert (HIs : inject_Z I <= v * 2 ^ (- e)).
    { apply pow2_scale in HI. rewrite <- HI. nra. }
    assert (HIm : (I <= m)%Z).
    { apply Qfloor_resp_le in HIs. rewrite Qfloor_Z in HIs. lia. }
    rewrite HI. rewrite Zle_Qle in HIm. nra.
  - (* the result is in a binade above [x] *)
    assert (H52 : (2 ^ 52 <= m)%Z) by (apply Hnormal; lia).
    apply Qle_trans with (2 ^ 53 * 2 ^ ex).
    + rewrite Hx. pose proof (pow2_pos ex).
      assert (inject_Z mx <= 2 ^ 53).
      { rewrite pow2_Z by done. rewrite <- Zle_Qle. lia. }
      nra.
    + apply Qle_trans with (2 ^ 52 * 2 ^ e).
      * rewrite <- !pow2_add. apply pow2_le. lia.
      * assert (2 ^ 52 <= inject_Z m).
        { rewrite pow2_Z by done. by rewrite <- Zle_Qle. }
        nra.
Qed.

Lemma round_ge (x v : Q) :
  representable x → 0 <= x → x <= v → x <= round v.
Proof.
  intros (mx & ex & Hex & Hmx & Hx) Hx0 Hxv.
  destruct (Qlt_le_dec 0 x) as [Hpos | Hle].
  - rewrite round_pos_eq by lra.
    apply (round_pos_ge x v mx ex); try done.
    split; [| unfold precision in Hmx; lia].
    destruct (decide (0 < mx)%Z) as [| Hn]; [done |]. exfalso.
    assert (inject_Z mx <= 0) by (rewrite <- (Zle_Qle _ 0); lia).
    pose proof (pow2_pos ex). nra.
  - apply Qle_trans with 0; [done |]. apply round_nonneg. lra.
Qed.

(** Rounding gives the same number for equal rationals. *)
Lemma nearest_even_comp (s s' : Q) :
  s == s' → nearest_even s = nearest_even s'.
Proof.
  intros Hs. unfold nearest_even. rewrite (Qfloor_comp _ _ Hs).
  assert ((s - inject_Z (Qfloor s') ?= 1 # 2) =
          (s' - inject_Z (Qfloor s') ?= 1 # 2)) as ->; [| done].
  apply Qcompare_comp; [by rewrite Hs | done].
Qed.

Lemma exponent_comp (p q : Q) : p == q → exponent p = exponent q.
Proof.
  intros Hpq. unfold exponent, ilog2.
  rewrite (Qleb_comp 1 1 (Qeq_refl 1) p q Hpq), (Qfloor_comp _ _ Hpq).
  by rewrite (Qceiling_comp (/ p) (/ q)) by by rewrite Hpq.
Qed.

Lemma round_pos_comp (p q : Q) : p == q → round_pos p = round_pos q.
Proof.
  intros Hpq. unfold round_pos. rewrite (exponent_comp p q Hpq).
  by rewrite (nearest_even_comp (p * 2 ^ (- exponent q))
                (q * 2 ^ (- exponent q))) by by rewrite Hpq.
Qed.

Lemma round_comp (p q : Q) : p == q → round p = round q.
Proof.
  intros Hpq. unfold round.
  rewrite (Qcompare_comp p q Hpq 0 0 (Qeq_refl 0)).
  rewrite (round_pos_comp p q Hpq).
  by rewrite (round_pos_comp (- p) (- q)) by by rewrite Hpq.
Qed.

(** A representable number is rounded to itself. *)
Lemma round_pos_id (x : Q) (mx ex : Z) :
  (emin <= ex)%Z → (0 < mx < 2 ^ 53)%Z → x == inject_Z mx * 2 ^ ex →
  round_pos x == x.
Proof.
  intros Hex Hmx Hx. pose proof (pow2_pos ex) as Hpex.
  assert (Hm0 : 0 < inject_Z mx) by (rewrite <- (Zlt_Qlt 0); lia).
  assert (Hm53 : inject_Z mx < 2 ^ 53).
  { rewrite pow2_Z by done. rewrite <- Zlt_Qlt. lia. }
  assert (Hxpos : 0 < x) by (rewrite Hx; nra).
  destruct (ilog2_spec x Hxpos) as [Hlo _].
  assert (He : (exponent x <= ex)%Z).
  { assert (2 ^ ilog2 x < 2 ^ (53 + ex)).
    { rewrite pow2_add. apply Qle_lt_trans with x; [done |]. rewrite Hx. nra. }
    apply Qpower_lt_compat_l_inv in H; [| done].
    unfold exponent, precision. lia. }
  unfold round_pos. set (e := exponent x) in *.
  set (I := (mx * 2 ^ (ex - e))%Z).
  assert (HI : x == inject_Z I * 2 ^ e).
  { rewrite Hx. unfold I. rewrite inject_Z_mult, <- pow2_Z by lia.
    rewrite <- Qmult_assoc, <- pow2_add.
    by replace (ex - e + e)%Z with ex by lia. }
  rewrite (nearest_even_Z _ I); [by rewrite <- HI |].
  by apply pow2_scale.
Qed.

Lemma round_id (x : Q) : representable x → round x == x.
Proof.
  intros (mx & ex & Hex & Hmx & Hx). unfold precision in Hmx.
  destruct (Z.lt_trichotomy mx 0) as [Hneg | [-> | Hpos]].
  - assert (Hx' : - x == inject_Z (- mx) * 2 ^ ex)
      by (rewrite Hx, inject_Z_opp; ring).
    assert (Hlt : x < 0).
    { assert (0 < inject_Z (- mx)) by (rewrite <- (Zlt_Qlt 0); lia).
      pose proof (pow2_pos ex). nra. }
    rewrite round_neg_eq by done.
    rewrite (round_pos_id (- x) (- mx) ex) by (done || lia). ring.
  - rewrite round_zero; rewrite Hx; ring.
  - assert (Hgt : 0 < x).
    { assert (0 < inject_Z mx) by (rewrite <- (Zlt_Qlt 0); lia).
      pose proof (pow2_pos ex). nra. }
    rewrite round_pos_eq by done.
    apply (round_pos_id x mx ex); done || lia.
Qed.

Lemma Qred_inject_Z (z : Z) : Qred (inject_Z z) = inject_Z z.
Proof.
  unfold Qred, inject_Z.
  pose proof (Z.ggcd_gcd z 1) as Hg.
  pose proof (Z.ggcd_correct_divisors z 1) as Hd.
  destruct (Z.ggcd z 1) as [g [q1 q2]]. cbn in *.
  rewrite Z.gcd_1_r in Hg. subst g. destruct Hd as [-> Hq2].
  assert (q2 = 1%Z) as -> by lia. f_equal. lia.
Qed.

Lemma round_reduced (q : Q) : Qred (round q) = round q.
Proof. unfold round. apply Qred_complete, Qred_correct. Qed.

Lemma round_Z (z : Z) :
  (Z.abs z < 2 ^ 53)%Z → round (inject_Z z) = inject_Z z.
Proof.
  intros Hz.
  assert (Hr : round (inject_Z z) == inject_Z z).
  { apply round_id. exists z, 0%Z. split; [done |]. split; [done |]. ring. }
  apply Qred_complete in Hr. rewrite Qred_inject_Z in Hr.
  by rewrite <- round_reduced.
Qed.

Lemma add_Z (a b : Z) :
  (Z.abs (a + b) < 2 ^ 53)%Z →
  add (inject_Z a) (inject_Z b) = inject_Z (a + b).
Proof.
  intros Hab. unfold add.
  rewrite (round_comp _ (inject_Z (a + b))) by by rewrite inject_Z_plus.
  by apply round_Z.
Qed.

Lemma Qabs_le_Qabs (a b : Q) :
  (- b <= a <= b ∨ b <= a <= - b) → Qabs a <= Qabs b.
Proof.
  intros H. apply Qabs_Qle_condition.
  pose proof (Qle_Qabs b). pose proof (Qle_Qabs (- b)) as Hn.
  rewrite Qabs_opp in Hn. destruct H; split; lra.
Qed.

(** No integer is nearer to [s] than [nearest_even s]. *)
Lemma nearest_even_nearest (s : Q) (j : Z) :
  Qabs (inject_Z (nearest_even s) - s) <= Qabs (inject_Z j - s).
Proof.
  pose proof (Qfloor_le s) as Hlo. pose proof (Qlt_floor s) as Hhi.
  rewrite inject_Z_plus in Hhi. change (inject_Z 1) with 1 in Hhi.
  unfold nearest_even.
  set (k := Qfloor s) in *.
  assert (Hj : inject_Z j <= inject_Z k ∨ inject_Z k + 1 <= inject_Z j).
  { destruct (decide (j <= k)%Z) as [Hle | Hgt].
    - left. by rewrite <- Zle_Qle.
    - right. change 1 with (inject_Z 1). rewrite <- inject_Z_plus, <- Zle_Qle.
      lia. }
  destruct (s - inject_Z k ?= 1 # 2) eqn:Hcmp.
  - apply Qeq_alt in Hcmp.
    destruct (Z.even k); [| rewrite inject_Z_plus; change (inject_Z 1) with 1];
      apply Qabs_le_Qabs; (destruct Hj; [right | left]); lra.
  - apply Qlt_alt in Hcmp. apply Qabs_le_Qabs.
    destruct Hj; [right | left]; lra.
  - apply Qgt_alt in Hcmp. rewrite inject_Z_plus. change (inject_Z 1) with 1.
    apply Qabs_le_Qabs. destruct Hj; [right | left]; lra.
Qed.

Lemma round_pos_nearest (v x : Q) :
  0 < v → representable x → Qabs (round_pos v - v) <= Qabs (x - v).
Proof.
  intros Hv (mx & ex & Hex & Hmx & Hx). unfold precision in Hmx.
  destruct (scaled_bounds v Hv) as (He & Hs0 & Hs53 & Hnormal).
  unfold round_pos. set (e := exponent v) in *.
  set (s := v * 2 ^ (- e)) in *.
  pose proof (pow2_pos e) as Hpe.
  assert (Hvs : v == s * 2 ^ e) by by apply pow2_scale.
  (* it is enough to compare the scaled distances *)
  assert (Hscale : ∀ t : Q,
    Qabs (inject_Z (nearest_even s) - s) <= Qabs (t - s) →
    Qabs (inject_Z (nearest_even s) * 2 ^ e - v) <= Qabs (t * 2 ^ e - v)).
  { intros t Ht.
    assert (Hl : inject_Z (nearest_even s) * 2 ^ e - v ==
                 (inject_Z (nearest_even s) - s) * 2 ^ e)
      by (rewrite Hvs; ring).
    assert (Hr : t * 2 ^ e - v == (t - s) * 2 ^ e) by (rewrite Hvs; ring).
    rewrite Hl, Hr, !Qabs_Qmult, (Qabs_pos (2 ^ e)) by lra.
    by apply Qmult_le_compat_r; [| lra]. }
  destruct (decide (e <= ex)%Z) as [Hle | Hgt].
  - (* [x] is a multiple of the unit of the result *)
    set (I := (mx * 2 ^ (ex - e))%Z).
    assert (HI : x == inject_Z I * 2 ^ e).
    { rewrite Hx. unfold I. rewrite inject_Z_mult, <- pow2_Z by lia.
      rewrite <- Qmult_assoc, <- pow2_add.
      by replace (ex - e + e)%Z with ex by lia. }
    rewrite HI. apply Hscale, nearest_even_nearest.
  - (* [x] is below the binade of [v] *)
    assert (H52 : 2 ^ 52 <= s) by (apply Hnormal; lia).
    set (t := x * 2 ^ (- e)).
    assert (Hxt : x == t * 2 ^ e) by by apply pow2_scale.
    assert (Ht : t <= 2 ^ 52).
    { unfold t. rewrite Hx, <- Qmult_assoc, <- pow2_add.
      apply Qle_trans with (2 ^ 53 * 2 ^ (ex + - e)).
      - pose proof (pow2_pos (ex + - e)).
        assert (inject_Z mx <= 2 ^ 53).
        { rewrite pow2_Z by done. rewrite <- Zle_Qle. lia. }
        nra.
      - rewrite <- pow2_add. apply pow2_le. lia. }
    rewrite Hxt. apply Hscale.
    apply Qle_trans with (Qabs (inject_Z (2 ^ 52) - s));
      [apply nearest_even_nearest |].
    rewrite <- pow2_Z by done. apply Qabs_le_Qabs. right. lra.
Qed.

(** The numbers of some literals and sums, and the ties: the middle of
    [2^53] and [2^53 + 2] goes to [2^53] and the middle of [2^53 + 2] and
    [2^53 + 4] to [2^53 + 4], and the half of the least positive number
    goes to zero. *)
Example round_examples :
  round 0.1 = 3602879701896397 # 36028797018963968
  ∧ round 0.2 = 3602879701896397 # 18014398509481984
  ∧ add (round 0.1) (round 0.2) = 1351079888211149 # 4503599627370496
  ∧ round 0.3 = 5404319552844595 # 18014398509481984
  ∧ mul (round 0.1) 3 = 1351079888211149 # 4503599627370496
  ∧ round (inject_Z (2 ^ 53 + 1)) = inject_Z (2 ^ 53)
  ∧ round (inject_Z (2 ^ 53 + 3)) = inject_Z (2 ^ 53 + 4)
  ∧ round (2 ^ (-1075)) = 0
  ∧ round (3 * 2 ^ (-1075)) = round (2 ^ (-1073))
  ∧ round (- (0.1)) = - round 0.1.
Proof. by vm_compute. Qed.

(** [round q] is a binary64 number, and no binary64 number is nearer to
    [q]. *)
Lemma round_nearest (q x : Q) :
  representable x → Qabs (round q - q) <= Qabs (x - q).
Proof.
  intros Hx. destruct (Q_dec q 0) as [[Hneg | Hpos] | Hz].
  - rewrite round_neg_eq by done.
    assert (Hl : - round_pos (- q) - q == - (round_pos (- q) - - q)) by ring.
    assert (Hr : x - q == - (- x - - q)) by ring.
    rewrite Hl, Hr, !Qabs_opp.
    apply round_pos_nearest; [lra | by apply representable_opp].
  - rewrite round_pos_eq by done. by apply round_pos_nearest.
  - rewrite round_zero by done.
    assert (Hl : 0 - q == 0) by (rewrite Hz; ring).
    rewrite Hl. apply Qabs_nonneg.
Qed.

End Rounding.

(** ** One event at a time *)

Section Steps.

Lemma alter_end {A} (f : A → A) (l : list A) (x : A) :
  alter f (length l) (l ++ [x]) = l ++ [f x].
Proof. induction l as [| y l IH]; [done |]. cbn. by rewrite IH. Qed.

Lemma step_start w a r i env :
  step w (CallStart a r i env) =
  {| activeStreams :=
       activeStreams w ++ [new_stream a r i env (nextIntervalId w)];
     isProcessing := isProcessing w;
     timers := <[nextIntervalId w :=
                  {| callback := new_tick a r env;
                     delay := (default 10%Q i * 1000)%Q |}]> (timers w);
     nextIntervalId := Pos.succ (nextIntervalId w);
     inflight := inflight w |}.
Proof.
  unfold step, dispatch, startPaymentStream. cbn.
  unfold set_activeStreams. cbn. by rewrite alter_end.
Qed.

Lemma step_stop w sid :
  step w (CallStop sid) =
  {| activeStreams := deactivate sid (activeStreams w);
     isProcessing := isProcessing w;
     timers := timers_after_stop sid w;
     nextIntervalId := nextIntervalId w;
     inflight := inflight w |}.
Proof.
  unfold step, dispatch, stopPaymentStream, timers_after_stop. cbn.
  destruct (find (has_id sid) (activeStreams w)) as [s |]; [| done].
  by destruct (intervalId s).
Qed.

Lemma step_timer w k :
  step w (TimerFires k) =
  match timers w !! k with
  | Some t => {| activeStreams := activeStreams w; isProcessing := true;
                 timers := timers w; nextIntervalId := nextIntervalId w;
                 inflight := inflight w ++ [callback t] |}
  | None => w
  end.
Proof. unfold step, dispatch. by destruct (timers w !! k). Qed.

Lemma step_settle w i o :
  step w (PaymentSettles i o) =
  match inflight w !! i with
  | Some t =>
      {| activeStreams :=
           match o with
           | Resolved _ _ _ => credit t (activeStreams w)
           | Threw => activeStreams w
           end;
         isProcessing := false;
         timers := timers w; nextIntervalId := nextIntervalId w;
         inflight := delete i (inflight w) |}
  | None => w
  end.
Proof.
  unfold step, dispatch. destruct (inflight w !! i); [| done].
  by destruct o.
Qed.

(** What one event does to the stream at a given index. *)
Lemma step_lookup w e i s :
  activeStreams w !! i = Some s →
  ∃ s', activeStreams (step w e) !! i = Some s'
    ∧ same_stream s' s
    ∧ (isActive s' = isActive s
       ∨ (e = CallStop (id s) ∧ isActive s' = false))
    ∧ ((credited (id s) w e = 0 ∧ totalSent s' = totalSent s)
       ∨ ∃ j t,
           inflight w !! j = Some t ∧ tk_streamId t = id s
           ∧ credited (id s) w e = 1
           ∧ isActive s' = isActive s
           ∧ totalSent s' = Binary64.add (totalSent s) (tk_amount t)).
Proof.
  intros Hi. assert (Hsame : same_stream s s) by done.
  destruct e as [a r iv env | sid | k | j o].
  - rewrite step_start. cbn. exists s.
    rewrite lookup_app_l by (by eapply lookup_lt_Some). auto 10.
  - rewrite step_stop. cbn. unfold deactivate.
    rewrite list_lookup_fmap, Hi. cbn. eexists. split; [done |].
    case_bool_decide as Hid; cbn; [subst sid |]; auto 10.
  - rewrite step_timer. destruct (timers w !! k); cbn; eauto 10.
  - rewrite step_settle. unfold credited.
    destruct (inflight w !! j) as [t |] eqn:Hj;
      [| exists s; destruct o; auto 10].
    destruct o as [n1 r n2 |]; cbn; [| eauto 10].
    unfold credit. rewrite list_lookup_fmap, Hi. cbn.
    eexists. split; [done |].
    rewrite (bool_decide_ext (tk_streamId t = id s) (id s = tk_streamId t))
      by done.
    case_bool_decide as Hid; cbn; [| auto 10].
    do 2 (split; [auto |]). right. by exists j, t.
Qed.

(** The one stream that an event can add. *)
Lemma step_new_stream w e i s' :
  activeStreams (step w e) !! i = Some s' →
  length (activeStreams w) ≤ i →
  credited (id s') w e = 0
  ∧ ∃ a r iv env, e = CallStart a r iv env
      ∧ s' = new_stream a r iv env (nextIntervalId w).
Proof.
  intros Hi' Hge. destruct e as [a r iv env | sid | k | j o].
  - split; [done |]. exists a, r, iv, env. split; [done |].
    rewrite step_start in Hi'. cbn in Hi'.
    rewrite lookup_app_r in Hi' by done.
    by apply list_lookup_singleton_Some in Hi' as [_ Hi'].
  - rewrite step_stop in Hi'. cbn in Hi'. unfold deactivate in Hi'.
    apply lookup_lt_Some in Hi'. rewrite length_fmap in Hi'. lia.
  - rewrite step_timer in Hi'. apply lookup_lt_Some in Hi'.
    destruct (timers w !! k); cbn in Hi'; lia.
  - rewrite step_settle in Hi'. apply lookup_lt_Some in Hi'.
    destruct (inflight w !! j); [| lia].
    destruct o; cbn in Hi';
      [unfold credit in Hi'; rewrite length_fmap in Hi' |]; lia.
Qed.

(** Where a stream of the list after an event comes from. *)
Lemma step_elem_of w e s' :
  s' ∈ activeStreams (step w e) →
  (∃ i s, activeStreams w !! i = Some s
          ∧ activeStreams (step w e) !! i = Some s')
  ∨ (∃ a r iv env, e = CallStart a r iv env
       ∧ s' = new_stream a r iv env (nextIntervalId w)).
Proof.
  intros [i Hi']%list_elem_of_lookup.
  destruct (decide (i < length (activeStreams w))) as [Hlt | Hge].
  - apply lookup_lt_is_Some in Hlt as [s Hi]. left. eauto.
  - right. apply (step_new_stream w e i s' Hi'). lia.
Qed.

(** What one event does to the timers and to the payments in flight. *)
Lemma step_timers w e k iv :
  timers (step w e) !! k = Some iv →
  timers w !! k = Some iv
  ∨ (∃ a r i env, e = CallStart a r i env ∧ k = nextIntervalId w
       ∧ callback iv = new_tick a r env).
Proof.
  destruct e as [a r i env | sid | k' | j o].
  - rewrite step_start. cbn.
    destruct (decide (nextIntervalId w = k)) as [<- | Hne].
    + rewrite lookup_insert_eq. intros [= <-]. right. by exists a, r, i, env.
    + rewrite lookup_insert_ne by done. auto.
  - rewrite step_stop. cbn. unfold timers_after_stop.
    destruct (find _ _) as [s0 |]; [| auto].
    destruct (intervalId s0); [| auto].
    intros [_ Hk]%lookup_delete_Some. auto.
  - rewrite step_timer. destruct (timers w !! k'); auto.
  - rewrite step_settle. destruct (inflight w !! j); auto.
Qed.

Lemma step_timers_None w e k :
  timers w !! k = None → (k < nextIntervalId w)%positive →
  timers (step w e) !! k = None.
Proof.
  intros Hk Hlt. destruct (timers (step w e) !! k) as [iv |] eqn:Hk';
    [| done].
  apply step_timers in Hk' as [Hk' | (a & r & i & env & _ & -> & _)];
    [congruence | lia].
Qed.

Lemma step_nextIntervalId w e :
  (nextIntervalId w <= nextIntervalId (step w e))%positive.
Proof.
  destruct e as [a r i env | sid | k | j o].
  - rewrite step_start. cbn. lia.
  - by rewrite step_stop.
  - rewrite step_timer. by destruct (timers w !! k).
  - rewrite step_settle. by destruct (inflight w !! j).
Qed.

Lemma step_inflight w e t :
  t ∈ inflight (step w e) →
  t ∈ inflight w
  ∨ (∃ k iv, e = TimerFires k ∧ timers w !! k = Some iv ∧ t = callback iv).
Proof.
  destruct e as [a r i env | sid | k | j o].
  - rewrite step_start. auto.
  - rewrite step_stop. auto.
  - rewrite step_timer. destruct (timers w !! k) as [iv |] eqn:Hk; [| auto].
    cbn. intros [Ht | Ht%list_elem_of_singleton]%elem_of_app; [auto |].
    right. by exists k, iv.
  - rewrite step_settle. destruct (inflight w !! j); [| auto]. cbn.
    intros Ht%list_elem_of_delete_inv. auto.
Qed.

End Steps.

(** ** Sequences of events *)

Section Traces.

Lemma exec_snoc w trace e : exec w (trace ++ [e]) = step (exec w trace) e.
Proof. unfold exec. by rewrite foldl_snoc. Qed.

Lemma exec_app w t1 t2 : exec w (t1 ++ t2) = exec (exec w t1) t2.
Proof. unfold exec. by rewrite foldl_app. Qed.

Lemma fresh_ids_app w t1 t2 :
  fresh_ids w (t1 ++ t2) = fresh_ids w t1 && fresh_ids (exec w t1) t2.
Proof.
  revert w. induction t1 as [| e t1 IH]; intros w; [done |].
  cbn. rewrite IH. by rewrite andb_assoc.
Qed.

Lemma successCount_app sid w t1 t2 :
  successCount sid w (t1 ++ t2) =
  successCount sid w t1 + successCount sid (exec w t1) t2.
Proof.
  revert w. induction t1 as [| e t1 IH]; intros w; [done |].
  change (credited sid w e + successCount sid (step w e) (t1 ++ t2) =
          credited sid w e + successCount sid (step w e) t1
          + successCount sid (exec (step w e) t1) t2).
  rewrite IH. apply Nat.add_assoc.
Qed.

Lemma ids_step w e sid : sid ∈ ids w → sid ∈ ids (step w e).
Proof.
  unfold ids. intros (s & -> & Hs)%list_elem_of_fmap.
  apply list_elem_of_lookup in Hs as [i Hi].
  destruct (step_lookup w e i s Hi) as (s' & Hi' & [<- _] & _).
  apply list_elem_of_fmap. exists s'. split; [done |].
  apply list_elem_of_lookup. eauto.
Qed.

Lemma ids_exec w trace sid : sid ∈ ids w → sid ∈ ids (exec w trace).
Proof.
  revert w. induction trace as [| e trace IH]; intros w Hs; [done |].
  cbn. by apply IH, ids_step.
Qed.

End Traces.

(** ** The invariant of the reachable worlds *)

Section Invariant.

(** Streams with the same id in a list of distinct ids are the same. *)
Lemma same_id_same_stream (l : list X402Stream) s1 s2 :
  NoDup (id <$> l) → s1 ∈ l → s2 ∈ l → id s1 = id s2 → s1 = s2.
Proof.
  intros Hnd [i1 H1]%list_elem_of_lookup [i2 H2]%list_elem_of_lookup Hid.
  assert (i1 = i2) as ->; [| congruence].
  eapply NoDup_lookup; [exact Hnd | |].
  - by rewrite list_lookup_fmap, H1.
  - rewrite list_lookup_fmap, H2. cbn. by rewrite Hid.
Qed.

(** [find] returns the stream with the id, when the ids are distinct. *)
Lemma find_has_id (l : list X402Stream) s :
  NoDup (id <$> l) → s ∈ l → find (has_id (id s)) l = Some s.
Proof.
  intros Hnd Hs. destruct (find (has_id (id s)) l) as [s0 |] eqn:Hfind.
  - apply find_some in Hfind as [Hin Hid]. apply list_elem_of_In in Hin.
    apply bool_decide_eq_true in Hid. f_equal.
    by apply (same_id_same_stream l).
  - apply list_elem_of_In in Hs.
    apply (find_none _ _ Hfind) in Hs. unfold has_id in Hs.
    by rewrite bool_decide_true in Hs.
Qed.

Lemma find_unknown_id (l : list X402Stream) sid :
  sid ∉ id <$> l → find (has_id sid) l = None.
Proof.
  intros Hsid. destruct (find (has_id sid) l) as [s0 |] eqn:Hfind; [| done].
  apply find_some in Hfind as [Hin Hid]. apply list_elem_of_In in Hin.
  apply bool_decide_eq_true in Hid. exfalso. apply Hsid.
  apply list_elem_of_fmap. eauto.
Qed.

Lemma consistent_initial : consistent initial.
Proof.
  split; cbn.
  - constructor.
  - intros k iv H. by rewrite lookup_empty in H.
  - intros t H. by apply elem_of_nil in H.
  - intros s k H. by apply elem_of_nil in H.
  - intros s k H. by apply elem_of_nil in H.
Qed.

Lemma ids_step_distinct w e :
  NoDup (ids w) → admissible w e = true → NoDup (ids (step w e)).
Proof.
  intros Hnd Hadm. unfold ids. destruct e as [a r i env | sid | k | j o].
  - rewrite step_start. cbn. rewrite fmap_app.
    apply bool_decide_eq_true in Hadm.
    apply NoDup_app. split; [done |]. split; [| apply NoDup_singleton].
    by intros x Hx ->%list_elem_of_singleton.
  - rewrite step_stop. cbn. unfold deactivate.
    rewrite <- list_fmap_compose.
    erewrite list_fmap_ext; [exact Hnd |].
    intros ? s _. cbn. by case_bool_decide.
  - rewrite step_timer. by destruct (timers w !! k).
  - rewrite step_settle. destruct (inflight w !! j) as [t |]; [| done].
    destruct o; cbn; [| done]. unfold credit.
    rewrite <- list_fmap_compose.
    erewrite list_fmap_ext; [exact Hnd |].
    intros ? s _. cbn. by case_bool_decide.
Qed.

(** The stream of a tick is still in the list after an event. *)
Lemma tick_of_step w e t s :
  tick_of (activeStreams w) t s →
  ∃ s', tick_of (activeStreams (step w e)) t s'
        ∧ intervalId s' = intervalId s.
Proof.
  intros ([i Hi]%list_elem_of_lookup & Hid & Ham).
  destruct (step_lookup w e i s Hi)
    as (s' & Hi' & (Hid' & Ham' & _ & _ & _ & Hk') & _).
  exists s'. split; [| done]. split; [| split; congruence].
  apply list_elem_of_lookup. eauto.
Qed.

Lemma consistent_step w e :
  consistent w → admissible w e = true → consistent (step w e).
Proof.
  intros [Hnd Htm Hfl Hlt Hcl] Hadm. split.
  - by apply ids_step_distinct.
  - intros k iv [Hk | (a & r & i & env & -> & -> & Hcb)]%step_timers.
    + destruct (Htm k iv Hk) as (s & Hs & Hsk).
      destruct (tick_of_step w e _ s Hs) as (s' & Hs' & Hk').
      exists s'. split; [done | congruence].
    + exists (new_stream a r i env (nextIntervalId w)).
      rewrite Hcb, step_start. cbn. repeat split. set_solver.
  - intros t [Ht | (k & iv & -> & Hk & ->)]%step_inflight.
    + destruct (Hfl t Ht) as (s & Hs).
      destruct (tick_of_step w e _ s Hs) as (s' & Hs' & _). eauto.
    + destruct (Htm k iv Hk) as (s & Hs & _).
      destruct (tick_of_step w (TimerFires k) _ s Hs) as (s' & Hs' & _).
      eauto.
  - intros s' k Hs' Hk'. pose proof (step_nextIntervalId w e) as Hnext.
    apply step_elem_of in Hs'
      as [(i & s & Hi & Hi') | (a & r & iv & env & -> & ->)].
    + destruct (step_lookup w e i s Hi)
        as (s0 & Hi0 & (_ & _ & _ & _ & _ & Hk0) & _).
      assert (s0 = s') as -> by congruence.
      assert (k < nextIntervalId w)%positive; [| lia].
      apply (Hlt s); [apply list_elem_of_lookup; eauto | congruence].
    + cbn in Hk'. injection Hk' as <-. rewrite step_start. cbn. lia.
  - intros s' k Hs' Hact' Hk'.
    apply step_elem_of in Hs'
      as [(i & s & Hi & Hi') | (a & r & iv & env & -> & ->)]; [| done].
    destruct (step_lookup w e i s Hi)
      as (s0 & Hi0 & (_ & _ & _ & _ & _ & Hk0) & Hact0 & _).
    assert (s0 = s') as -> by congruence.
    assert (Hs : s ∈ activeStreams w) by (apply list_elem_of_lookup; eauto).
    assert (Hk : intervalId s = Some k) by congruence.
    destruct Hact0 as [Hact0 | [-> _]].
    + apply step_timers_None; [| by apply (Hlt s)].
      apply (Hcl s); [done | congruence | done].
    + rewrite step_stop. cbn. unfold timers_after_stop.
      rewrite (find_has_id _ s Hnd Hs), Hk. apply lookup_delete_eq.
Qed.

Lemma consistent_exec w trace :
  consistent w → fresh_ids w trace = true → consistent (exec w trace).
Proof.
  revert w. induction trace as [| e trace IH]; intros w Hc Hf; [done |].
  cbn in Hf. apply andb_true_iff in Hf as [He Hf].
  cbn. apply IH; [by apply consistent_step | done].
Qed.

Lemma reachable_consistent trace :
  fresh_ids initial trace = true → consistent (exec initial trace).
Proof. apply consistent_exec, consistent_initial. Qed.

(** The amount that a tick in flight pays is the amount of its stream. *)
Lemma tick_amount w t s :
  consistent w → t ∈ inflight w → s ∈ activeStreams w →
  tk_streamId t = id s → tk_amount t = amount s.
Proof.
  intros Hc Ht Hs Hid.
  destruct (inflight_owned w Hc t Ht) as (s0 & Hs0 & Hid0 & Ham0).
  rewrite <- Ham0. f_equal.
  eapply same_id_same_stream; [apply (ids_distinct w Hc) | done | done |].
  congruence.
Qed.

Lemma credited_unknown sid w e :
  consistent w → sid ∉ ids w → credited sid w e = 0.
Proof.
  intros Hc Hsid. destruct e as [| | | j [n1 r n2 |]]; try done. cbn.
  destruct (inflight w !! j) as [t |] eqn:Hj; [| done].
  case_bool_decide as Hid; [| done]. exfalso. apply Hsid.
  destruct (inflight_owned w Hc t) as (s & Hs & Hs' & _).
  { apply list_elem_of_lookup. eauto. }
  unfold ids. apply list_elem_of_fmap. exists s. split; [congruence | done].
Qed.

Lemma successCount_unknown sid w trace :
  consistent w → fresh_ids w trace = true →
  sid ∉ ids (exec w trace) → successCount sid w trace = 0.
Proof.
  revert w. induction trace as [| e trace IH]; intros w Hc Hf Hsid; [done |].
  cbn in Hf. apply andb_true_iff in Hf as [He Hf]. cbn in Hsid.
  change (credited sid w e + successCount sid (step w e) trace = 0).
  rewrite IH by (try apply consistent_step; done).
  rewrite credited_unknown; [done | done |].
  intros Hin. apply Hsid. by apply ids_exec, ids_step.
Qed.

Lemma credits_succ (a : Q) (n : nat) (x : Q) :
  credits a (S n) x = Binary64.add (credits a n x) a.
Proof. reflexivity. Qed.

Lemma credits_succ_r (a : Q) (n : nat) (x : Q) :
  credits a (S n) x = credits a n (Binary64.add x a).
Proof. unfold credits. by rewrite Nat.iter_succ_r. Qed.

(** The [totalSent] of a stream is made of its successful ticks. *)
Lemma accounting trace :
  fresh_ids initial trace = true →
  ∀ s, s ∈ activeStreams (exec initial trace) →
    totalSent s =
    credits (amount s) (successCount (id s) initial trace) 0%Q.
Proof.
  induction trace as [| e trace IH] using rev_ind.
  { intros _ s Hs. by apply elem_of_nil in Hs. }
  intros Hf s' Hs'. rewrite fresh_ids_app in Hf.
  apply andb_true_iff in Hf as [Hf He]. cbn in He.
  rewrite andb_true_r in He. specialize (IH Hf).
  assert (Hc := reachable_consistent _ Hf).
  rewrite exec_snoc in Hs'. rewrite successCount_app.
  change (successCount (id s') (exec initial trace) [e])
    with (credited (id s') (exec initial trace) e + 0).
  rewrite Nat.add_0_r.
  apply step_elem_of in Hs'
    as [(i & s & Hi & Hi') | (a & r & iv & env & -> & ->)].
  - (* a stream that was there before the event *)
    destruct (step_lookup _ e i s Hi)
      as (s0 & Hi0 & (Hid & Ham & _) & _ & Hsent).
    assert (s0 = s') as -> by congruence.
    assert (Hs : s ∈ activeStreams (exec initial trace))
      by (apply list_elem_of_lookup; eauto).
    rewrite Hid, Ham.
    destruct Hsent as [[-> ->] | (j & t & Hj & Ht & -> & _ & ->)].
    + rewrite Nat.add_0_r. by apply IH.
    + rewrite (tick_amount _ t s Hc) by
        (try (apply list_elem_of_lookup; eauto); done).
      rewrite Nat.add_1_r, credits_succ. f_equal. by apply IH.
  - (* the stream that the event created *)
    cbn in He. apply bool_decide_eq_true in He.
    cbn [new_stream id totalSent amount credited].
    by rewrite (successCount_unknown _ _ _ consistent_initial Hf He).
Qed.

(** Sums of whole numbers are exact below [2^53]. *)
Lemma credits_Z (amount : Q) (a : Z) (n : nat) :
  (amount == inject_Z a)%Q → (Z.abs a * Z.of_nat n < 2 ^ 53)%Z →
  credits amount n 0%Q = inject_Z (a * Z.of_nat n).
Proof.
  intros Ha. induction n as [| n IH]; intros Hn.
  { by rewrite Z.mul_0_r. }
  assert (Hle : (Z.abs a * Z.of_nat n <= Z.abs a * Z.of_nat (S n))%Z)
    by (apply Z.mul_le_mono_nonneg_l; lia).
  rewrite credits_succ, IH by lia. unfold Binary64.add.
  rewrite (round_comp _ (inject_Z (a * Z.of_nat (S n)))).
  - apply round_Z. rewrite Z.abs_mul, (Z.abs_eq (Z.of_nat (S n))); lia.
  - rewrite Ha, <- inject_Z_plus. f_equal.
    rewrite Nat2Z.inj_succ, Z.mul_succ_r. done.
Qed.

Lemma credits_representable (amount : Q) (n : nat) :
  Binary64.representable (credits amount n 0%Q).
Proof.
  destruct n as [| n]; [apply representable_0 |].
  rewrite credits_succ. apply round_representable.
Qed.

Lemma credits_nonneg (amount : Q) (n : nat) :
  (0 <= amount)%Q → (0 <= credits amount n 0)%Q.
Proof.
  intros Ha. induction n as [| n IH]; [done |].
  rewrite credits_succ. apply round_nonneg.
  apply (Qplus_le_compat 0 _ 0 _ IH Ha).
Qed.

End Invariant.

(** ** Starting a stream *)

Section Start.

Import Scenario.

(** C1, as the specification states it, fails: [startPaymentStream]
    with the amount 0 returns a stream id and adds a stream to the active
    streams. *)
Lemma startStream_accepts_zero_amount :
  let r := startPaymentStream 0 "cause-1" (Some 10%Q) env1 initial in
  value r = Some id1
  ∧ getAllStreams initial = []
  ∧ getAllStreams (world r) =
    [{| id := id1; amount := 0; interval := 10; recipient := "cause-1";
        isActive := true; totalSent := 0; startTime := 1700000000000;
        intervalId := Some 1%positive |}].
Proof. vm_compute. done. Qed.

(** C1, amended: every call of [startPaymentStream], whatever the
    amount, the interval and the recipient, returns the id of a stream
    that it appends to the list, active and with [totalSent] 0; its timer
    is live and no tick has begun.  No call fails, and none leaves the
    active streams unchanged. *)
Theorem startPaymentStream_always_starts
    (amount : Q) (recipient : string) (intervalSeconds : option Q)
    (env : StartEnv) (w : World) :
  let r := startPaymentStream amount recipient intervalSeconds env w in
  let s := new_stream amount recipient intervalSeconds env
             (nextIntervalId w) in
  value r = Some (id s)
  ∧ activeStreams (world r) = activeStreams w ++ [s]
  ∧ isActive s = true ∧ totalSent s = 0%Q
  ∧ getAllStreams (world r) = getAllStreams w ++ [s]
  ∧ timers (world r) !! nextIntervalId w =
    Some {| callback := new_tick amount recipient env;
            delay := (default 10%Q intervalSeconds * 1000)%Q |}
  ∧ inflight (world r) = inflight w.
Proof.
  cbn zeta.
  change (world (startPaymentStream amount recipient intervalSeconds env w))
    with (step w (CallStart amount recipient intervalSeconds env)).
  rewrite step_start. cbn.
  repeat split; [| apply lookup_insert_eq].
  unfold getAllStreams. cbn. by rewrite filter_app.
Qed.

End Start.

(** ** Stopping a stream *)

Section Stop.

Import Scenario.

Lemma with_isActive_same (s : X402Stream) :
  isActive s = false → with_isActive false s = s.
Proof. destruct s. cbn. by intros ->. Qed.

Lemma deactivate_twice sid l :
  deactivate sid (deactivate sid l) = deactivate sid l.
Proof.
  unfold deactivate. rewrite <- list_fmap_compose.
  apply list_fmap_ext. intros ? s _. cbn.
  destruct (decide (id s = sid)) as [Hid | Hid].
  - rewrite (bool_decide_true (id s = sid)) by done. cbn.
    by rewrite bool_decide_true.
  - by rewrite !(bool_decide_false (id s = sid)).
Qed.

Lemma deactivate_stopped sid l :
  (∀ s, s ∈ l → id s = sid → isActive s = false) → deactivate sid l = l.
Proof.
  intros Hl. unfold deactivate. induction l as [| s l IH]; [done |].
  cbn. rewrite IH by (intros; apply Hl; [by right | done]).
  case_bool_decide; [| done].
  rewrite with_isActive_same; [done |]. apply Hl; [by left | done].
Qed.

Lemma find_deactivate sid l :
  find (has_id sid) (deactivate sid l) =
  with_isActive false <$> find (has_id sid) l.
Proof.
  unfold deactivate. induction l as [| s l IH]; [done |]. cbn.
  unfold has_id at 1 3. destruct (decide (id s = sid)) as [Hid | Hid].
  - by rewrite !(bool_decide_true (id s = sid)) by done.
  - rewrite !(bool_decide_false (id s = sid)) by done. apply IH.
Qed.

Lemma stop_twice w sid :
  step (step w (CallStop sid)) (CallStop sid) = step w (CallStop sid).
Proof.
  rewrite (step_stop (step w (CallStop sid))). rewrite step_stop.
  cbn [activeStreams isProcessing nextIntervalId inflight].
  f_equal; [apply deactivate_twice |].
  unfold timers_after_stop. cbn [activeStreams timers].
  rewrite find_deactivate.
  destruct (find (has_id sid) (activeStreams w)) as [s |]; [| done]. cbn.
  destruct (intervalId s); [| done]. apply delete_delete_eq.
Qed.

Lemma stop_returns w sid :
  value (stopPaymentStream sid w) = tt
  ∧ console (stopPaymentStream sid w) =
    ["x402 Payment stream stopped: " +:+ sid].
Proof.
  unfold stopPaymentStream, bind. cbn.
  destruct (find (has_id sid) (activeStreams w)) as [s |]; [| done].
  by destruct (intervalId s).
Qed.

Lemma stop_stopped w sid :
  consistent w →
  (∀ s, s ∈ activeStreams w → id s = sid → isActive s = false) →
  step w (CallStop sid) = w.
Proof.
  intros Hc Hstopped. rewrite step_stop.
  rewrite deactivate_stopped by done.
  assert (timers_after_stop sid w = timers w) as ->; [| by destruct w].
  unfold timers_after_stop.
  destruct (find (has_id sid) (activeStreams w)) as [s |] eqn:Hfind;
    [| done].
  destruct (intervalId s) as [k |] eqn:Hk; [| done].
  apply find_some in Hfind as [Hs%list_elem_of_In Hid%bool_decide_eq_true].
  apply delete_id. apply (stopped_cleared w Hc s); auto.
Qed.

(** C3: a second [stopPaymentStream] in a row leaves the world (the
    streams and the timers) as the first one left it, returns as the first
    did and prints the same line; and on every reachable world in which
    the stream is already not active, or in which no stream has the id,
    [stopPaymentStream] changes nothing. *)
Theorem stopPaymentStream_idempotent :
  (∀ (w : World) (streamId : string),
     let once := stopPaymentStream streamId w in
     let twice := stopPaymentStream streamId (world once) in
     world twice = world once ∧ value twice = value once
     ∧ console twice = console once
     ∧ ∀ s, s ∈ activeStreams (world once) → id s = streamId →
         isActive s = false)
  ∧ (∀ (trace : list Event) (streamId : string),
       fresh_ids initial trace = true →
       (∀ s, s ∈ activeStreams (exec initial trace) → id s = streamId →
          isActive s = false) →
       world (stopPaymentStream streamId (exec initial trace)) =
       exec initial trace).
Proof.
  split.
  - intros w sid. cbn zeta.
    change (world (stopPaymentStream sid w)) with (step w (CallStop sid)).
    change (world (stopPaymentStream sid (step w (CallStop sid))))
      with (step (step w (CallStop sid)) (CallStop sid)).
    split; [apply stop_twice |].
    destruct (stop_returns w sid) as [-> ->].
    destruct (stop_returns (step w (CallStop sid)) sid) as [-> ->].
    do 2 (split; [done |]).
    rewrite step_stop. cbn. unfold deactivate.
    intros s' (s & -> & Hs)%list_elem_of_fmap. by case_bool_decide.
  - intros trace sid Hf Hstopped.
    apply (stop_stopped (exec initial trace) sid); [| done].
    by apply reachable_consistent.
Qed.

Lemma stopPaymentStream_idempotent_witness :
  fresh_ids initial (three_paid_ticks ++ [CallStop id1]) = true
  ∧ world (stopPaymentStream id1
             (exec initial (three_paid_ticks ++ [CallStop id1]))) =
    exec initial (three_paid_ticks ++ [CallStop id1]).
Proof.
  split; [done |].
  apply (proj2 stopPaymentStream_idempotent
           (three_paid_ticks ++ [CallStop id1]) id1); [done |].
  intros s Hs _. vm_compute in Hs.
  apply list_elem_of_singleton in Hs. by subst s.
Defined.

(** C9, as the specification states it, fails: [stopPaymentStream] with
    an id that no stream has returns as for any other id, changes nothing
    and prints that the stream was stopped.  [getStreamStats] returns
    [null] for that id. *)
Lemma stopStream_unknown_id_is_silent :
  let w := exec initial three_paid_ticks in
  getStreamStats "stream_0_unknown" 1700000040000 w = None
  ∧ stopPaymentStream "stream_0_unknown" w =
    (tt, w, ["x402 Payment stream stopped: stream_0_unknown"]).
Proof. vm_compute. done. Qed.

(** C9, amended: for an id that no stream has, [getStreamStats] returns
    [null]; [stopPaymentStream] returns normally, leaves the streams and
    the timers as they are and prints its line, and the handler of
    [stopDonationStream] of the socket service leaves the registry as it
    is and sends nothing: neither reports that the id is unknown. *)
Theorem unknown_streamId (w : World) (streamId : string) (now : Z) :
  streamId ∉ ids w →
  getStreamStats streamId now w = None
  ∧ stopPaymentStream streamId w =
    (tt, w, ["x402 Payment stream stopped: " +:+ streamId])
  ∧ ∀ socket reg, SocketService.map_get streamId reg = None →
      SocketService.handle socket
        (SocketService.stopDonationStream streamId) reg = (reg, []).
Proof.
  intros Hsid. pose proof (find_unknown_id _ _ Hsid) as Hfind.
  split; [| split].
  - unfold getStreamStats. by rewrite Hfind.
  - unfold stopPaymentStream, bind. cbn. rewrite Hfind. cbn.
    rewrite deactivate_stopped; [by destruct w |].
    intros s Hs Hid. exfalso. apply Hsid. unfold ids.
    apply list_elem_of_fmap. eauto.
  - intros socket reg Hget. cbn. by rewrite Hget.
Qed.

Lemma unknown_streamId_witness :
  ("stream_0_unknown" ∉ ids (exec initial three_paid_ticks))
  ∧ getStreamStats "stream_0_unknown" 1700000040000
      (exec initial three_paid_ticks) = None
  ∧ world (stopPaymentStream "stream_0_unknown"
             (exec initial three_paid_ticks)) =
    exec initial three_paid_ticks.
Proof.
  assert (Hunknown : "stream_0_unknown" ∉ ids (exec initial three_paid_ticks)).
  { vm_compute. intros Hin. by apply list_elem_of_singleton in Hin. }
  split; [exact Hunknown |].
  destruct (unknown_streamId (exec initial three_paid_ticks)
              "stream_0_unknown" 1700000040000 Hunknown)
    as (Hstats & Hstop & _).
  split; [exact Hstats |]. by rewrite Hstop.
Defined.

End Stop.

(** ** Ticks *)

Section Ticks.

Import Scenario.

(** The second scenario of the specification: the executor fails on the
    second of three ticks. *)
Example second_tick_fails_result :
  activeStreams (exec initial second_tick_fails) =
    [{| id := id1; amount := 10; interval := 5; recipient := "cause-2";
        isActive := true; totalSent := 20; startTime := 1700000000000;
        intervalId := Some 1%positive |}]
  ∧ successCount id1 initial second_tick_fails = 2.
Proof. vm_compute. done. Qed.

(** The isolation scenario of the specification: the stream whose
    payments fail stays active with nothing sent, and the other stream is
    paid twice. *)
Example one_stream_fails_result :
  fresh_ids initial one_stream_fails = true
  ∧ (λ s, (id s, isActive s, totalSent s))
      <$> activeStreams (exec initial one_stream_fails) =
    [(id1, true, 0%Q); (id2, true, 6%Q)].
Proof. vm_compute. done. Qed.

(** C5: when the payment of a tick fails, [processPayment] returns a
    response with [success: false] (nothing is thrown to the tick or to
    any caller), and the tick leaves every stream of the list as it was,
    the stream of the tick included: its [totalSent] and its [isActive]
    are unchanged.  The timers stay as they were, so the stream ticks
    again. *)
Theorem failed_tick_changes_no_stream (w : World) :
  (∀ request, success (value (processPayment_resume request Threw w)) = false)
  ∧ (∀ t, value (tick_resume t Threw w) = tt
          ∧ activeStreams (world (tick_resume t Threw w)) = activeStreams w
          ∧ timers (world (tick_resume t Threw w)) = timers w)
  ∧ (∀ i, activeStreams (step w (PaymentSettles i Threw)) = activeStreams w
          ∧ timers (step w (PaymentSettles i Threw)) = timers w).
Proof.
  split; [done |]. split; [done |].
  intros i. rewrite step_settle. by destruct (inflight w !! i).
Qed.

(** C2, as the specification states it, fails: a stream of a negative
    amount is accepted, and a paid tick takes its [totalSent] from 0 down
    to the amount. *)
Lemma totalSent_decreases_for_negative_amount :
  ∃ before after,
    activeStreams (exec initial (removelast negative_amount)) !! 0
      = Some before
    ∧ activeStreams (exec initial negative_amount) !! 0 = Some after
    ∧ id before = id1 ∧ id after = id1
    ∧ totalSent before = 0%Q ∧ totalSent after = (-5)%Q
    ∧ (totalSent after < totalSent before)%Q.
Proof.
  eexists _, _. split; [vm_compute; reflexivity |].
  split; [vm_compute; reflexivity |]. cbn. repeat split.
Qed.

(** Why the ids are to be distinct: when the environment gives two
    streams the same id, a paid tick of the one is credited to both, with
    the amount of the one. *)
Example colliding_ids_result :
  fresh_ids initial colliding_ids = false
  ∧ (λ s, (id s, amount s, totalSent s))
      <$> activeStreams (exec initial colliding_ids) =
    [(id1, 5%Q, 5%Q); (id1, 7%Q, 5%Q)].
Proof. vm_compute. done. Qed.

(** C2, amended: in every world that a sequence of events with distinct
    stream ids reaches, the [totalSent] of every stream is what adding
    its [amount] to 0 once for each of its successful ticks gives, each
    sum rounded as the operator [+] rounds it; this is the [amount] times
    the number of the successful ticks when the amount is a whole number
    and the product is below [2^53].  Every event leaves the [totalSent]
    of a stream as it was, when it is not a successful tick of the
    stream, or makes it the rounded sum of [totalSent] and the [amount],
    when it is one, and so does not decrease it when the amount is not
    negative.  The sum is not the product in general: after ten paid
    ticks of a stream of the amount 0.1 the [totalSent] is
    0.9999999999999999, below 1, which [0.1 * 10] gives. *)
Theorem totalSent_accounting :
  (∀ trace : list Event,
     fresh_ids initial trace = true →
     (∀ s, s ∈ activeStreams (exec initial trace) →
        totalSent s =
          credits (amount s) (successCount (id s) initial trace) 0%Q
        ∧ ∀ a : Z,
            (amount s == inject_Z a)%Q →
            (Z.abs a * Z.of_nat (successCount (id s) initial trace)
             < 2 ^ 53)%Z →
            totalSent s =
              inject_Z (a * Z.of_nat (successCount (id s) initial trace)))
     ∧ (∀ e i s,
          admissible (exec initial trace) e = true →
          activeStreams (exec initial trace) !! i = Some s →
          ∃ s', activeStreams (exec initial (trace ++ [e])) !! i = Some s'
            ∧ same_stream s' s
            ∧ ((credited (id s) (exec initial trace) e = 0
                ∧ totalSent s' = totalSent s)
               ∨ (credited (id s) (exec initial trace) e = 1
                  ∧ totalSent s' = Binary64.add (totalSent s) (amount s)))
            ∧ ((0 <= amount s)%Q → (totalSent s <= totalSent s')%Q)))
  ∧ (∃ s, activeStreams (exec initial ten_paid_ticks) = [s]
       ∧ amount s = tenth
       ∧ successCount (id s) initial ten_paid_ticks = 10
       ∧ totalSent s = (9007199254740991 # 9007199254740992)%Q
       ∧ Binary64.mul (amount s) 10 = 1%Q
       ∧ (totalSent s < 1)%Q).
Proof.
  split.
  - intros trace Hf. split.
    + intros s Hs. pose proof (accounting trace Hf s Hs) as Hsum.
      split; [done |]. intros a Ha Hn. rewrite Hsum. by apply credits_Z.
    + intros e i s He Hi. rewrite exec_snoc.
      assert (Hc := reachable_consistent _ Hf).
      assert (Hs : s ∈ activeStreams (exec initial trace))
        by (apply list_elem_of_lookup; eauto).
      destruct (step_lookup _ e i s Hi) as (s' & Hi' & Hsame & _ & Hsent).
      exists s'. do 2 (split; [done |]).
      destruct Hsent as [[Hcr ->] | (j & t & Hj & Ht & Hcr & _ & ->)].
      * split; [by left | intros _; apply Qle_refl].
      * rewrite (tick_amount _ t s Hc) by
          (try (apply list_elem_of_lookup; eauto); done).
        split; [by right |]. intros Hpos.
        rewrite (accounting trace Hf s Hs).
        set (n := successCount (id s) initial trace).
        pose proof (credits_nonneg (amount s) n Hpos) as Hsent.
        apply round_ge; [apply credits_representable | done |].
        rewrite <- (Qplus_0_r (credits (amount s) n 0)) at 1.
        by apply Qplus_le_compat; [apply Qle_refl |].
  - eexists. split; [vm_compute; reflexivity |]. by vm_compute.
Qed.

Lemma totalSent_accounting_witness :
  fresh_ids initial three_paid_ticks = true
  ∧ (∀ s, s ∈ activeStreams (exec initial three_paid_ticks) →
       totalSent s =
       credits (amount s) (successCount (id s) initial three_paid_ticks) 0%Q)
  ∧ ∃ s', activeStreams
            (exec initial (three_paid_ticks ++ [CallStop id1])) !! 0
            = Some s'
      ∧ totalSent s' = 24%Q.
Proof.
  assert (Hlook :
    activeStreams (exec initial three_paid_ticks) !! 0 =
    Some {| id := id1; amount := 8; interval := 10; recipient := "cause-1";
            isActive := true; totalSent := 24; startTime := 1700000000000;
            intervalId := Some 1%positive |}) by (vm_compute; reflexivity).
  split; [done |].
  destruct (proj1 totalSent_accounting three_paid_ticks eq_refl)
    as [Hsum Hstep].
  split; [intros s Hs; apply (Hsum s Hs) |].
  destruct (Hstep (CallStop id1) 0 _ eq_refl Hlook)
    as (s' & Hs' & _ & Hsent & _).
  exists s'. split; [exact Hs' |].
  destruct Hsent as [[_ Hsame] | [Hcredited _]];
    [exact Hsame | discriminate Hcredited].
Defined.

(** The first scenario of the specification: three paid ticks of a
    stream of the amount 8. *)
Example three_paid_ticks_result :
  activeStreams (exec initial three_paid_ticks) =
    [{| id := id1; amount := 8; interval := 10; recipient := "cause-1";
        isActive := true; totalSent := 24; startTime := 1700000000000;
        intervalId := Some 1%positive |}]
  ∧ successCount id1 initial three_paid_ticks = 3.
Proof. vm_compute. done. Qed.

End Ticks.

(** ** A tick that is in flight when its stream is stopped *)

Section StopDuringTick.

Import Scenario.

Lemma same_stream_eq (s' s : X402Stream) :
  same_stream s' s → isActive s' = isActive s →
  totalSent s' = totalSent s → s' = s.
Proof.
  destruct s', s. unfold same_stream. cbn.
  intros (-> & -> & -> & -> & -> & ->) -> ->. done.
Qed.

Lemma new_id_differs w e sid a r iv env :
  admissible w e = true → sid ∈ ids w → e = CallStart a r iv env →
  streamId_of (now_id env) (rnd env) ≠ sid.
Proof.
  intros Hadm Hsid -> <-. by apply bool_decide_eq_true in Hadm.
Qed.

Lemma cancelled_step w e sid :
  admissible w e = true → cancelled sid w → cancelled sid (step w e).
Proof.
  intros Hadm [Hknown Hinact Htm]. split.
  - by apply ids_step.
  - intros s' Hs' Hid'.
    apply step_elem_of in Hs'
      as [(i & s & Hi & Hi') | (a & r & iv & env & He & ->)].
    + destruct (step_lookup w e i s Hi)
        as (s0 & Hi0 & (Hid0 & _) & Hact0 & _).
      assert (s0 = s') as -> by congruence.
      destruct Hact0 as [-> | [_ ->]]; [| done].
      apply Hinact; [apply list_elem_of_lookup; eauto | congruence].
    + by destruct (new_id_differs w e sid a r iv env).
  - intros k iv [Hk | (a & r & i & env & He & _ & ->)]%step_timers.
    + by apply (Htm k).
    + by apply (new_id_differs w e sid a r i env).
Qed.

Lemma cancelled_exec w trace sid :
  fresh_ids w trace = true → cancelled sid w → cancelled sid (exec w trace).
Proof.
  revert w. induction trace as [| e trace IH]; intros w Hf Hc; [done |].
  cbn in Hf. apply andb_true_iff in Hf as [He Hf].
  cbn. apply IH; [done | by apply cancelled_step].
Qed.

Lemma stop_cancels w sid :
  consistent w → sid ∈ ids w → cancelled sid (step w (CallStop sid)).
Proof.
  intros Hc Hsid. split.
  - by apply ids_step.
  - rewrite step_stop. cbn. unfold deactivate.
    intros s' (s & -> & Hs)%list_elem_of_fmap. by case_bool_decide.
  - intros k iv Hk Hcb. pose proof Hk as Hk'.
    apply step_timers in Hk' as [Hk' | (? & ? & ? & ? & ? & _)]; [| done].
    destruct (timers_owned w Hc k iv Hk') as (s & (Hs & Hid & _) & Hsk).
    rewrite step_stop in Hk. cbn in Hk. unfold timers_after_stop in Hk.
    rewrite <- Hcb, <- Hid in Hk.
    rewrite (find_has_id _ s (ids_distinct w Hc) Hs), Hsk in Hk.
    by rewrite lookup_delete_eq in Hk.
Qed.

(** A stopped stream with no payment in flight does not change. *)
Lemma settled_step w e sid :
  admissible w e = true → cancelled sid w → settled sid w →
  settled sid (step w e)
  ∧ ∀ i s, activeStreams w !! i = Some s → id s = sid →
      activeStreams (step w e) !! i = Some s.
Proof.
  intros Hadm [Hknown Hinact Htm] Hsettled. split.
  - intros t [Ht | (k & iv & _ & Hk & ->)]%step_inflight.
    + by apply Hsettled.
    + by apply (Htm k).
  - intros i s Hi Hid.
    destruct (step_lookup w e i s Hi) as (s' & Hi' & Hsame & Hact & Hsent).
    rewrite Hi'. f_equal.
    assert (Hs : isActive s = false)
      by (apply Hinact; [apply list_elem_of_lookup; eauto | done]).
    apply same_stream_eq; [done | |].
    + destruct Hact as [-> | [_ ->]]; done.
    + destruct Hsent as [[_ ->] | (j & t & Hj & Ht & _)]; [done |].
      exfalso. apply (Hsettled t); [| congruence].
      apply list_elem_of_lookup. eauto.
Qed.

Lemma settled_exec w trace sid :
  fresh_ids w trace = true → cancelled sid w → settled sid w →
  ∀ i s, activeStreams w !! i = Some s → id s = sid →
    activeStreams (exec w trace) !! i = Some s.
Proof.
  revert w. induction trace as [| e trace IH];
    intros w Hf Hc Hsettled i s Hi Hid; [done |].
  cbn in Hf. apply andb_true_iff in Hf as [He Hf].
  destruct (settled_step w e sid He Hc Hsettled) as [Hsettled' Hsame].
  cbn. apply (IH (step w e)); auto using cancelled_step.
Qed.

(** A stopped stream stays in its place and stays not active. *)
Lemma inactive_exec w trace i s :
  activeStreams w !! i = Some s → isActive s = false →
  ∃ s', activeStreams (exec w trace) !! i = Some s'
        ∧ same_stream s' s ∧ isActive s' = false.
Proof.
  revert w s. induction trace as [| e trace IH]; intros w s Hi Hact.
  { by exists s. }
  destruct (step_lookup w e i s Hi) as (s1 & Hi1 & Hsame1 & Hact1 & _).
  assert (Hact1' : isActive s1 = false)
    by (destruct Hact1 as [-> | [_ ->]]; done).
  destruct (IH (step w e) s1 Hi1 Hact1') as (s' & Hi' & Hsame' & Hact').
  exists s'. split; [done |]. split; [| done].
  unfold same_stream in *. intuition congruence.
Qed.

(** C4, as the specification states it, fails: the payment of a tick
    that began before [stopPaymentStream] settles after it and adds the
    amount to the [totalSent] of the stopped stream. *)
Lemma payment_lands_after_stop :
  ∃ stopped later,
    activeStreams (exec initial (removelast stop_during_payment)) !! 0
      = Some stopped
    ∧ activeStreams (exec initial stop_during_payment) !! 0 = Some later
    ∧ id stopped = id1 ∧ id later = id1
    ∧ isActive stopped = false ∧ isActive later = false
    ∧ totalSent stopped = 0%Q ∧ totalSent later = 5%Q.
Proof.
  eexists _, _. split; [vm_compute; reflexivity |].
  split; [vm_compute; reflexivity |]. cbn. repeat split.
Qed.

(** C4, amended: in a run with distinct stream ids, once
    [stopPaymentStream] has returned, the stream is not active and stays
    so, no live timer ticks for it, so none of its ticks begins any more,
    and when none of its payments was in flight at the stop, the stream
    never changes again.  (A payment that was in flight at the stop still
    adds its amount when it succeeds.) *)
Theorem stopped_stream_frozen
    (trace later : list Event) (streamId : string) (i : nat)
    (s : X402Stream) :
  fresh_ids initial (trace ++ CallStop streamId :: later) = true →
  activeStreams (exec initial (trace ++ [CallStop streamId])) !! i
    = Some s →
  id s = streamId →
  isActive s = false
  ∧ (∀ k iv,
       timers (exec initial (trace ++ CallStop streamId :: later)) !! k
         = Some iv →
       tk_streamId (callback iv) ≠ streamId)
  ∧ (∃ s',
       activeStreams (exec initial (trace ++ CallStop streamId :: later))
         !! i = Some s'
       ∧ same_stream s' s ∧ isActive s' = false)
  ∧ (settled streamId (exec initial trace) →
     activeStreams (exec initial (trace ++ CallStop streamId :: later)) !! i
       = Some s).
Proof.
  intros Hf Hi Hid.
  set (w := exec initial (trace ++ CallStop streamId :: later)).
  rewrite fresh_ids_app in Hf. apply andb_true_iff in Hf as [Hf Hlater].
  cbn [fresh_ids admissible andb] in Hlater.
  assert (Hc := reachable_consistent _ Hf).
  assert (w = exec (step (exec initial trace) (CallStop streamId)) later)
    as -> by (unfold w; by rewrite exec_app).
  rewrite exec_snoc in Hi. pose proof Hi as Hi1.
  rewrite step_stop in Hi. cbn in Hi. unfold deactivate in Hi.
  rewrite list_lookup_fmap in Hi.
  destruct (activeStreams (exec initial trace) !! i) as [s0 |] eqn:Hi0;
    [| done].
  cbn in Hi. injection Hi as Hs.
  assert (Hid0 : id s0 = streamId)
    by (rewrite <- Hid, <- Hs; by case_bool_decide).
  rewrite bool_decide_true in Hs by done.
  assert (Hact : isActive s = false) by by rewrite <- Hs.
  assert (Hcancelled :
            cancelled streamId (step (exec initial trace) (CallStop streamId))).
  { apply stop_cancels; [done |]. unfold ids. apply list_elem_of_fmap.
    exists s0. split; [done | apply list_elem_of_lookup; eauto]. }
  split; [done |]. split; [| split].
  - apply cancelled_timers. by apply cancelled_exec.
  - by apply inactive_exec.
  - intros Hsettled. apply (settled_exec _ _ streamId); try done.
    intros t [Ht | (? & ? & ? & _)]%step_inflight; [by apply Hsettled | done].
Qed.

Lemma stopped_stream_frozen_witness :
  fresh_ids initial
    (three_paid_ticks ++ CallStop id1 :: [TimerFires 1; TimerFires 1]) = true
  ∧ settled id1 (exec initial three_paid_ticks)
  ∧ activeStreams
      (exec initial
         (three_paid_ticks ++ CallStop id1 :: [TimerFires 1; TimerFires 1]))
      !! 0 =
    Some {| id := id1; amount := 8; interval := 10; recipient := "cause-1";
            isActive := false; totalSent := 24; startTime := 1700000000000;
            intervalId := Some 1%positive |}.
Proof.
  assert (Hsettled : settled id1 (exec initial three_paid_ticks)).
  { intros t Ht. vm_compute in Ht. by apply elem_of_nil in Ht. }
  split; [done |]. split; [done |].
  by apply (stopped_stream_frozen three_paid_ticks
              [TimerFires 1; TimerFires 1] id1 0).
Defined.

End StopDuringTick.

(** ** Leaving the active state *)

Section Lifecycle.

Import Scenario.

Lemma map_get_set_eq k v reg :
  SocketService.map_get k (SocketService.map_set k v reg) = Some v.
Proof.
  induction reg as [| [k' v'] reg IH]; cbn.
  - by rewrite bool_decide_true.
  - destruct (decide (k' = k)) as [Hk | Hk].
    + rewrite (bool_decide_true (k' = k)) by done. cbn.
      by rewrite bool_decide_true.
    + rewrite (bool_decide_false (k' = k)) by done. cbn.
      by rewrite bool_decide_false.
Qed.

Lemma map_get_set_ne k k0 v reg :
  k ≠ k0 →
  SocketService.map_get k0 (SocketService.map_set k v reg) =
  SocketService.map_get k0 reg.
Proof.
  intros Hne. induction reg as [| [k' v'] reg IH]; cbn.
  - by rewrite bool_decide_false.
  - destruct (decide (k' = k)) as [-> | Hk].
    + rewrite (bool_decide_true (k = k)) by done. cbn.
      by rewrite !(bool_decide_false (k = k0)).
    + rewrite (bool_decide_false (k' = k)) by done. cbn.
      by rewrite IH.
Qed.

Lemma map_get_delete_eq k reg :
  SocketService.map_get k (SocketService.map_delete k reg) = None.
Proof.
  induction reg as [| [k' v'] reg IH]; cbn; [done |].
  destruct (decide (k' = k)) as [Hk | Hk].
  - by rewrite (bool_decide_true (k' = k)).
  - rewrite (bool_decide_false (k' = k)) by done. cbn.
    by rewrite bool_decide_false.
Qed.

Lemma map_get_delete_ne k k0 reg :
  k ≠ k0 →
  SocketService.map_get k0 (SocketService.map_delete k reg) =
  SocketService.map_get k0 reg.
Proof.
  intros Hne. induction reg as [| [k' v'] reg IH]; cbn; [done |].
  destruct (decide (k' = k)) as [-> | Hk].
  - rewrite (bool_decide_true (k = k)) by done.
    by rewrite (bool_decide_false (k = k0)).
  - rewrite (bool_decide_false (k' = k)) by done. cbn. by rewrite IH.
Qed.

(** C8, as the specification states it, fails: in the socket service a
    stop request takes an active stream to the status [completed]. *)
Lemma stop_request_completes_donation_stream :
  ∃ stream,
    SocketService.map_get "stream-1" one_donation = Some stream
    ∧ SocketService.status stream = SocketService.active
    ∧ SocketService.handle "socket-1"
        (SocketService.stopDonationStream "stream-1") one_donation =
      ([],
       [SocketService.io_emit
          (SocketService.donationStreamCompleted
             {| SocketService.id := "stream-1";
                SocketService.donor := "0xd0";
                SocketService.recipient := "cause-1";
                SocketService.amount := 8;
                SocketService.cause := "Clean Water";
                SocketService.status := SocketService.completed;
                SocketService.startTime := 1700000000000 |});
        SocketService.socket_emit "socket-1"
          (SocketService.streamStopped "stream-1"
             SocketService.completed)]).
Proof. eexists. split; [reflexivity |]. split; reflexivity. Qed.

(** C8, amended: a stream leaves the active state by a stop request for
    its id and by nothing else.  In the hook, every event leaves an active
    stream active unless it is [stopPaymentStream] for the id of the
    stream, which leaves it not active (stopped) and as it was in
    everything else.  In the socket service, every event of a client
    leaves an active stream of the registry in the registry as it is, or
    registers a new active stream under its id, unless it is
    [stopDonationStream] for the id of the stream: this removes the
    stream from the registry, broadcasts that very stream with the
    status [completed], and tells the client that the stream is
    [completed]. *)
Theorem only_stop_leaves_active :
  (∀ (w : World) (e : Event) (i : nat) (s : X402Stream),
     activeStreams w !! i = Some s → isActive s = true →
     ∃ s', activeStreams (step w e) !! i = Some s' ∧ same_stream s' s
       ∧ (e ≠ CallStop (id s) → isActive s' = true)
       ∧ (e = CallStop (id s) →
          isActive s' = false ∧ s' = with_isActive false s))
  ∧ (∀ (socket : string) (e : SocketService.ClientEvent)
       (reg : SocketService.Registry) (streamId : string)
       (stream : SocketService.DonationStream),
       SocketService.map_get streamId reg = Some stream →
       SocketService.status stream = SocketService.active →
       (e ≠ SocketService.stopDonationStream streamId →
        ∃ stream',
          SocketService.map_get streamId
            (SocketService.handle socket e reg).1 = Some stream'
          ∧ SocketService.status stream' = SocketService.active
          ∧ (stream' = stream
             ∨ ∃ donor recipient amount cause now,
                 e = SocketService.startDonationStream streamId donor
                       recipient amount cause now
                 ∧ stream' =
                   Server.started streamId donor recipient amount cause
                     now))
       ∧ (e = SocketService.stopDonationStream streamId →
          SocketService.handle socket e reg =
            (SocketService.map_delete streamId reg,
             [SocketService.io_emit
                (SocketService.donationStreamCompleted
                   (Server.as_completed stream));
              SocketService.socket_emit socket
                (SocketService.streamStopped streamId
                   SocketService.completed)])
          ∧ SocketService.map_get streamId
              (SocketService.map_delete streamId reg) = None
          ∧ SocketService.status (Server.as_completed stream) =
            SocketService.completed
          ∧ SocketService.id (Server.as_completed stream) =
            SocketService.id stream
          ∧ SocketService.donor (Server.as_completed stream) =
            SocketService.donor stream
          ∧ SocketService.recipient (Server.as_completed stream) =
            SocketService.recipient stream
          ∧ SocketService.amount (Server.as_completed stream) =
            SocketService.amount stream
          ∧ SocketService.cause (Server.as_completed stream) =
            SocketService.cause stream
          ∧ SocketService.startTime (Server.as_completed stream) =
            SocketService.startTime stream)).
Proof.
  split.
  - intros w e i s Hi Hact.
    destruct (step_lookup w e i s Hi) as (s' & Hi' & Hsame & Hact' & _).
    exists s'. do 2 (split; [done |]). split.
    + intros He. destruct Hact' as [-> | [-> _]]; done.
    + intros ->. rewrite step_stop in Hi'. cbn in Hi'. unfold deactivate in Hi'.
      rewrite list_lookup_fmap, Hi in Hi'. cbn in Hi'.
      rewrite bool_decide_true in Hi' by done. by injection Hi' as <-.
  - intros socket e reg sid stream Hget Hstatus. split.
    + intros He.
      destruct e as [| sid' donor rcp amt cause now | sid' | | |]; cbn;
        try by eauto.
      * destruct (decide (sid' = sid)) as [-> | Hne].
        -- rewrite map_get_set_eq. eexists. do 2 (split; [done |]).
           right. by exists donor, rcp, amt, cause, now.
        -- rewrite map_get_set_ne by done. eauto.
      * assert (Hne : sid' ≠ sid) by congruence.
        destruct (SocketService.map_get sid' reg); cbn; [| by eauto].
        rewrite map_get_delete_ne by done. eauto.
    + intros ->. cbn. rewrite Hget. cbn.
      split; [done |]. split; [apply map_get_delete_eq | done].
Qed.

Lemma only_stop_leaves_active_witness :
  activeStreams (exec initial three_paid_ticks) !! 0 =
    Some {| id := id1; amount := 8; interval := 10; recipient := "cause-1";
            isActive := true; totalSent := 24; startTime := 1700000000000;
            intervalId := Some 1%positive |}
  ∧ (∃ s', activeStreams (step (exec initial three_paid_ticks) (CallStop id1))
             !! 0 = Some s'
           ∧ isActive s' = false)
  ∧ SocketService.map_get "stream-1"
      (SocketService.handle "socket-1"
         (SocketService.stopDonationStream "stream-1") one_donation).1 = None.
Proof.
  split; [done |]. split.
  - destruct (proj1 only_stop_leaves_active (exec initial three_paid_ticks)
                (CallStop id1) 0 _ eq_refl eq_refl)
      as (s' & Hs' & _ & _ & Hstop).
    exists s'. split; [exact Hs' | by apply Hstop].
  - destruct (proj2 only_stop_leaves_active "socket-1"
                (SocketService.stopDonationStream "stream-1") one_donation
                "stream-1" _ eq_refl eq_refl) as [_ Hstop].
    destruct (Hstop eq_refl) as [Hhandle _]. by rewrite Hhandle.
Defined.

End Lifecycle.

(** ** Statistics *)

Section Stats.

Import JsNumber Scenario.

Lemma div_finite_nonzero (p q : Q) :
  ¬ (q == 0)%Q → div_finite p q = Num (p / q).
Proof.
  intros Hq. unfold div_finite, Qis_zero.
  destruct (Qeq_bool q 0) eqn:Hz; [| done].
  by apply Qeq_bool_iff in Hz.
Qed.





End Stats.

(** ** Fees *)

Section Fees.

Lemma Qmax_left_when_le (x y : Q) : (y <= x)%Q → Qmax x y = x.
Proof.
  intros Hle. unfold Qmax, GenericMinMax.gmax.
  destruct (Qcompare_spec x y) as [_ | Hlt | _]; [done | lra | done].
Qed.

(** The helper of the hook follows the policy of the specification, with
    the minimum 0.01 and the rate 0.001. *)
Lemma hook_fee_policy (amount : Q) :
  UseX402.calculateX402Fee amount = Spec.fee 0.01 0.001 amount.
Proof. reflexivity. Qed.

Lemma hook_fee_monotone (a b : Q) :
  (a <= b)%Q → (UseX402.calculateX402Fee a <= UseX402.calculateX402Fee b)%Q.
Proof.
  intros Hab. unfold UseX402.calculateX402Fee.
  apply Q.max_le_compat_l. lra.
Qed.

Lemma portal_fee_monotone (a b : Q) :
  (a <= b)%Q →
  (DonorPortal.calculateX402Fee a <= DonorPortal.calculateX402Fee b)%Q.
Proof. unfold DonorPortal.calculateX402Fee. lra. Qed.

Lemma form_fee_monotone (a b : Q) :
  (a <= b)%Q →
  (USDCBalanceDemo.calculateFx02Fee a <= USDCBalanceDemo.calculateFx02Fee b)%Q.
Proof. unfold USDCBalanceDemo.calculateFx02Fee. lra. Qed.

(** What the donor portal shows as the total of the amount 5: with its
    own helper 5.005, where the helper of the hook gives 5.01. *)
Example portal_total :
  (DonorPortal.totalAmount 5 == 5.005)%Q
  ∧ (5 + UseX402.calculateX402Fee 5 == 5.01)%Q.
Proof. split; reflexivity. Qed.

(** No policy with a positive minimum gives the fees of the helper of
    the donor portal. *)
Lemma portal_fee_has_no_minimum (minimumFee feeRate : Q) :
  (0 < minimumFee)%Q →
  ¬ (DonorPortal.calculateX402Fee 0 == Spec.fee minimumFee feeRate 0)%Q.
Proof.
  intros Hmin Heq. unfold DonorPortal.calculateX402Fee, Spec.fee in Heq.
  pose proof (Q.le_max_l minimumFee (0 * feeRate)) as Hle.
  rewrite <- Heq in Hle. lra.
Qed.

(** C6, on the code: the two helpers named [calculateX402Fee] disagree
    on the amount 5.  The helper of the hook returns the minimum fee
    0.01, as the policy [max(minimumFee, amount × feeRate)] says; the
    helper of the donor portal, which computes the fee of the stream that
    it starts, returns 0.005, below the minimum. *)
Theorem portal_fee_below_minimum :
  UseX402.calculateX402Fee 5 = Spec.fee 0.01 0.001 5
  ∧ UseX402.calculateX402Fee 5 = 0.01%Q
  ∧ (DonorPortal.calculateX402Fee 5 == 0.005)%Q
  ∧ ¬ (DonorPortal.calculateX402Fee 5 == Spec.fee 0.01 0.001 5)%Q
  ∧ (DonorPortal.calculateX402Fee 5 < 0.01)%Q.
Proof.
  split; [reflexivity |]. split; [reflexivity |].
  split; [reflexivity |]. split; [| reflexivity].
  intros H. discriminate H.
Qed.

(** C10: the helper of the hook returns at least 0.01 for every amount,
    zero and the negative amounts included, so never zero, and exactly
    0.01 for every amount up to 10. *)
Theorem calculateX402Fee_floor (amount : Q) :
  (0.01 <= UseX402.calculateX402Fee amount)%Q
  ∧ ¬ (UseX402.calculateX402Fee amount == 0)%Q
  ∧ ((amount <= 10)%Q → UseX402.calculateX402Fee amount = 0.01%Q).
Proof.
  assert (Hfloor : (0.01 <= UseX402.calculateX402Fee amount)%Q)
    by apply Q.le_max_l.
  split; [done |]. split.
  - intros Hz. rewrite Hz in Hfloor. lra.
  - intros Hle. apply Qmax_left_when_le. lra.
Qed.

Lemma calculateX402Fee_floor_witness :
  (-3 <= 10)%Q ∧ UseX402.calculateX402Fee (-3) = 0.01%Q.
Proof.
  split; [lra |].
  apply (calculateX402Fee_floor (-3)). lra.
Defined.

End Fees.

(** ** Streams stay in the list *)

Section Growth.

Import Scenario Ledger.

Lemma same_stream_trans (s2 s1 s : X402Stream) :
  same_stream s2 s1 → same_stream s1 s → same_stream s2 s.
Proof. unfold same_stream. intuition congruence. Qed.

Lemma exec_lookup w trace i s :
  activeStreams w !! i = Some s →
  ∃ s', activeStreams (exec w trace) !! i = Some s' ∧ same_stream s' s.
Proof.
  revert w s. induction trace as [| e trace IH]; intros w s Hi.
  { by exists s. }
  destruct (step_lookup w e i s Hi) as (s1 & Hi1 & Hsame1 & _).
  destruct (IH (step w e) s1 Hi1) as (s' & Hi' & Hsame').
  exists s'. split; [done |]. by apply (same_stream_trans s' s1 s).
Qed.

Lemma elem_of_deactivate_ids sid l s :
  s ∈ deactivate sid l → id s ∈ id <$> l.
Proof.
  unfold deactivate. intros (s0 & -> & Hs0)%list_elem_of_fmap.
  apply list_elem_of_fmap. exists s0. split; [by case_bool_decide | done].
Qed.

Lemma starts_cons e trace :
  starts (e :: trace) = (if is_start e then 1 else 0) + starts trace.
Proof.
  unfold starts. rewrite filter_cons.
  destruct e; cbn; by rewrite ?decide_True, ?decide_False by done.
Qed.

Lemma step_length w e :
  length (activeStreams (step w e)) =
  length (activeStreams w) + (if is_start e then 1 else 0).
Proof.
  destruct e as [a r iv env | sid | k | j o]; cbn [is_start].
  - rewrite step_start. cbn. rewrite length_app. done.
  - rewrite step_stop. cbn. unfold deactivate. rewrite length_fmap. lia.
  - rewrite step_timer. destruct (timers w !! k); cbn; lia.
  - rewrite step_settle. destruct (inflight w !! j); [| lia].
    destruct o; cbn; [unfold credit; rewrite length_fmap |]; lia.
Qed.

Lemma find_known_id (l : list X402Stream) sid :
  sid ∈ id <$> l → ∃ s, find (has_id sid) l = Some s ∧ id s = sid.
Proof.
  intros (s & -> & Hs)%list_elem_of_fmap.
  destruct (find (has_id (id s)) l) as [s0 |] eqn:Hfind.
  - exists s0. split; [done |].
    by apply find_some in Hfind as [_ Hid%bool_decide_eq_true].
  - apply list_elem_of_In in Hs. apply (find_none _ _ Hfind) in Hs.
    unfold has_id in Hs. by rewrite bool_decide_true in Hs.
Qed.

(** X3: the hook never removes a stream from its list: after any
    sequence of events the list has one more stream for each call of
    [startPaymentStream], every stream is at the index where it was, with
    its id, amount, interval, recipient, start time and timer id
    unchanged, and [getStreamStats] still answers for every id that it
    answered for, also after the stream was stopped. *)
Theorem streams_are_never_removed (w : World) (trace : list Event) :
  length (activeStreams (exec w trace)) =
    length (activeStreams w) + starts trace
  ∧ (∀ i s, activeStreams w !! i = Some s →
       ∃ s', activeStreams (exec w trace) !! i = Some s' ∧ same_stream s' s)
  ∧ (∀ streamId now, streamId ∈ ids w →
       ∃ st, getStreamStats streamId now (exec w trace) = Some st
             ∧ st_streamId st = streamId).
Proof.
  split; [| split].
  - revert w. induction trace as [| e trace IH]; intros w.
    { unfold starts. cbn. lia. }
    cbn [exec foldl]. fold (exec (step w e) trace).
    rewrite IH, step_length, starts_cons. lia.
  - intros i s. apply exec_lookup.
  - intros sid now Hsid.
    destruct (find_known_id (activeStreams (exec w trace)) sid)
      as (s & Hfind & _); [by apply ids_exec |].
    unfold getStreamStats. rewrite Hfind. eauto.
Qed.

Lemma streams_are_never_removed_witness :
  (id1 ∈ ids (exec initial three_paid_ticks))
  ∧ ∃ st, getStreamStats id1 1700000040000
            (exec (exec initial three_paid_ticks) [CallStop id1]) = Some st
          ∧ st_streamId st = id1.
Proof.
  assert (Hknown : id1 ∈ ids (exec initial three_paid_ticks))
    by (vm_compute; apply list_elem_of_singleton; reflexivity).
  split; [exact Hknown |].
  by apply (streams_are_never_removed (exec initial three_paid_ticks)
              [CallStop id1]).
Defined.

End Growth.

(** ** Timers and active streams *)

Section Timers.

Import Scenario Ledger.

Lemma timer_of_same (s' s : X402Stream) :
  same_stream s' s → timer_of s' = timer_of s.
Proof.
  unfold timer_of. by intros (-> & -> & -> & -> & _).
Qed.

Lemma ticking_step w e :
  consistent w → ticking w → admissible w e = true → ticking (step w e).
Proof.
  intros Hc Ht Hadm s' Hs' Hact'.
  apply step_elem_of in Hs'
    as [(i & s & Hi & Hi') | (a & r & iv & env & -> & ->)].
  - destruct (step_lookup w e i s Hi) as (s0 & Hi0 & Hsame & Hact & _).
    assert (s0 = s') as -> by congruence.
    assert (Hs : s ∈ activeStreams w) by (apply list_elem_of_lookup; eauto).
    assert (Hact0 : isActive s = true)
      by (destruct Hact as [<- | [_ Hf]]; congruence).
    destruct (Ht s Hs Hact0) as (k & Hk & Htimer).
    exists k. rewrite (timer_of_same s' s Hsame).
    split; [destruct Hsame as (_ & _ & _ & _ & _ & ->); done |].
    destruct e as [a r iv env | sid | k' | j o].
    + rewrite step_start. cbn. rewrite lookup_insert_ne; [done |].
      pose proof (intervalIds_allocated w Hc s k Hs Hk). lia.
    + assert (Hid : id s ≠ sid).
      { intros Hid. rewrite step_stop in Hi'. cbn in Hi'.
        unfold deactivate in Hi'. rewrite list_lookup_fmap, Hi in Hi'.
        cbn in Hi'. rewrite bool_decide_true in Hi' by done.
        injection Hi' as <-. done. }
      rewrite step_stop. cbn. unfold timers_after_stop.
      destruct (find (has_id sid) (activeStreams w)) as [s0 |] eqn:Hfind;
        [| done].
      destruct (intervalId s0) as [k0 |] eqn:Hk0; [| done].
      apply find_some in Hfind
        as [Hs0%list_elem_of_In Hid0%bool_decide_eq_true].
      rewrite lookup_delete_ne; [done |]. intros ->.
      destruct (isActive s0) eqn:Hact1.
      * destruct (Ht s0 Hs0 Hact1) as (k1 & Hk1 & Htimer1).
        assert (k1 = k) as -> by congruence.
        rewrite Htimer in Htimer1. injection Htimer1 as _ _ Hid1 _.
        congruence.
      * rewrite (stopped_cleared w Hc s0 k Hs0 Hact1 Hk0) in Htimer. done.
    + rewrite step_timer. by destruct (timers w !! k').
    + rewrite step_settle. by destruct (inflight w !! j).
  - exists (nextIntervalId w). split; [done |].
    rewrite step_start. cbn. by rewrite lookup_insert_eq.
Qed.

Lemma ticking_exec w trace :
  consistent w → ticking w → fresh_ids w trace = true →
  ticking (exec w trace).
Proof.
  revert w. induction trace as [| e trace IH]; intros w Hc Ht Hf; [done |].
  cbn in Hf. apply andb_true_iff in Hf as [He Hf].
  cbn. apply IH; [by apply consistent_step | by apply ticking_step | done].
Qed.

(** X1: in every world that a sequence of events with distinct stream
    ids reaches, every active stream has a live timer, under its
    [intervalId], whose callback pays the amount of the stream to its
    recipient under its id and whose delay is its interval in
    milliseconds; and every live timer is the timer of an active stream
    of the list: no timer outlives its stream. *)
Theorem active_streams_are_the_ticking_ones (trace : list Event) :
  fresh_ids initial trace = true →
  (∀ s, s ∈ activeStreams (exec initial trace) → isActive s = true →
     ∃ k, intervalId s = Some k
       ∧ timers (exec initial trace) !! k = Some (timer_of s))
  ∧ (∀ k iv, timers (exec initial trace) !! k = Some iv →
       ∃ s, s ∈ activeStreams (exec initial trace) ∧ isActive s = true
         ∧ intervalId s = Some k ∧ iv = timer_of s).
Proof.
  intros Hf. pose proof (reachable_consistent trace Hf) as Hc.
  assert (Ht : ticking (exec initial trace)).
  { apply ticking_exec; [apply consistent_initial | | done].
    intros s Hs. by apply elem_of_nil in Hs. }
  split; [exact Ht |].
  intros k iv Hk.
  destruct (timers_owned _ Hc k iv Hk) as (s & (Hs & _) & Hsk).
  destruct (isActive s) eqn:Hact.
  - exists s. do 3 (split; [done |]).
    destruct (Ht s Hs Hact) as (k' & Hk' & Htimer). congruence.
  - rewrite (stopped_cleared _ Hc s k Hs Hact Hsk) in Hk. done.
Qed.

Lemma active_streams_are_the_ticking_ones_witness :
  fresh_ids initial one_stream_fails = true
  ∧ ∀ k iv, timers (exec initial one_stream_fails) !! k = Some iv →
      ∃ s, s ∈ activeStreams (exec initial one_stream_fails)
        ∧ isActive s = true ∧ intervalId s = Some k ∧ iv = timer_of s.
Proof.
  split; [done |].
  apply (active_streams_are_the_ticking_ones one_stream_fails). done.
Defined.

(** Why the ids are to be distinct: of two streams with the same id,
    [stopPaymentStream] clears the timer of the first only, and the timer
    of the second goes on with no active stream. *)
Example colliding_ids_leak_a_timer :
  let w := exec initial (colliding_ids ++ [CallStop id1]) in
  isActive <$> activeStreams w = [false; false]
  ∧ is_Some (timers w !! 2%positive).
Proof. vm_compute. split; [done | eauto]. Qed.

End Timers.

(** ** Payments that settle after the stop *)

Section LateCredits.

Import Scenario Ledger.

Lemma filter_delete_length {A} (P : A → Prop) `{!∀ x, Decision (P x)}
    (l : list A) i x :
  l !! i = Some x →
  length (filter P (delete i l)) + (if decide (P x) then 1 else 0) =
  length (filter P l).
Proof.
  revert i. induction l as [| y l IH]; intros [| i] Hi; try done.
  - cbn in Hi. injection Hi as ->. rewrite filter_cons.
    change (delete 0 (x :: l)) with l.
    destruct (decide (P x)); cbn [length]; lia.
  - cbn in Hi. change (delete (S i) (y :: l)) with (y :: delete i l).
    rewrite !filter_cons. specialize (IH i Hi).
    destruct (decide (P y)), (decide (P x)); cbn [length]; lia.
Qed.

Lemma pending_step w e sid :
  cancelled sid w → pending sid (step w e) + credited sid w e ≤ pending sid w.
Proof.
  intros [_ _ Htm]. unfold pending.
  destruct e as [a r iv env | sid' | k | j o].
  - rewrite step_start. cbn. lia.
  - rewrite step_stop. cbn. lia.
  - rewrite step_timer. destruct (timers w !! k) as [t |] eqn:Hk; cbn;
      [| lia].
    rewrite filter_app, length_app, filter_cons.
    rewrite decide_False by (by apply (Htm k)). cbn. lia.
  - rewrite step_settle. cbn.
    destruct (inflight w !! j) as [t |] eqn:Hj; [| destruct o; lia].
    cbn. pose proof (filter_delete_length
                       (λ t, tk_streamId t = sid) (inflight w) j t Hj) as Hlen.
    destruct o; [| destruct (decide _); lia].
    rewrite (bool_decide_decide (tk_streamId t = sid)).
    destruct (decide (tk_streamId t = sid)); lia.
Qed.

Lemma pending_exec w later sid :
  fresh_ids w later = true → cancelled sid w →
  successCount sid w later + pending sid (exec w later) ≤ pending sid w.
Proof.
  revert w. induction later as [| e later IH]; intros w Hf Hc.
  { cbn. lia. }
  cbn in Hf. apply andb_true_iff in Hf as [He Hf].
  change (credited sid w e + successCount sid (step w e) later
          + pending sid (exec (step w e) later) ≤ pending sid w).
  pose proof (IH (step w e) Hf (cancelled_step w e sid He Hc)).
  pose proof (pending_step w e sid Hc). lia.
Qed.

(** What a sequence of events makes of the [totalSent] of a stream. *)
Lemma accounting_from w trace i s :
  consistent w → fresh_ids w trace = true →
  activeStreams w !! i = Some s →
  ∃ s', activeStreams (exec w trace) !! i = Some s' ∧ same_stream s' s
    ∧ totalSent s' =
      credits (amount s) (successCount (id s) w trace) (totalSent s).
Proof.
  revert w s. induction trace as [| e trace IH]; intros w s Hc Hf Hi.
  { by exists s. }
  cbn in Hf. apply andb_true_iff in Hf as [He Hf].
  destruct (step_lookup w e i s Hi) as (s1 & Hi1 & Hsame1 & _ & Hsent).
  destruct (IH (step w e) s1 (consistent_step w e Hc He) Hf Hi1)
    as (s' & Hi' & Hsame' & Hsent').
  exists s'. split; [done |].
  split; [by apply (same_stream_trans s' s1 s) |].
  rewrite Hsent'. destruct Hsame1 as (Hid1 & Ham1 & _). rewrite Hid1, Ham1.
  change (successCount (id s) w (e :: trace))
    with (credited (id s) w e + successCount (id s) (step w e) trace).
  destruct Hsent as [[-> ->] | (j & t & Hj & Ht & -> & _ & ->)]; [done |].
  rewrite (tick_amount w t s Hc) by
    (try (apply list_elem_of_lookup; eauto); done).
  by rewrite <- credits_succ_r.
Qed.

(** X2: in a run with distinct stream ids, the successful ticks of a
    stream after [stopPaymentStream] are at most the payments of the
    stream that were in flight at the stop, and the [totalSent] of the
    stream after the stop is what adding its amount to the value at the
    stop, once for each of them and with the operator [+], gives. *)
Theorem late_credits_are_bounded
    (trace later : list Event) (streamId : string) (s0 s : X402Stream) :
  fresh_ids initial (trace ++ CallStop streamId :: later) = true →
  s0 ∈ activeStreams (exec initial (trace ++ [CallStop streamId])) →
  s ∈ activeStreams (exec initial (trace ++ CallStop streamId :: later)) →
  id s0 = streamId → id s = streamId →
  successCount streamId (exec initial (trace ++ [CallStop streamId])) later
    ≤ pending streamId (exec initial trace)
  ∧ totalSent s =
    credits (amount s0)
      (successCount streamId
         (exec initial (trace ++ [CallStop streamId])) later)
      (totalSent s0).
Proof.
  intros Hf Hs0 Hs Hid0 Hid.
  assert (Hfull : trace ++ CallStop streamId :: later =
                  (trace ++ [CallStop streamId]) ++ later)
    by by rewrite <- app_assoc.
  rewrite Hfull in Hf, Hs.
  pose proof Hf as Hf'. rewrite fresh_ids_app in Hf'.
  apply andb_true_iff in Hf' as [Hstop Hlater].
  pose proof Hstop as Hstop'. rewrite fresh_ids_app in Hstop'.
  apply andb_true_iff in Hstop' as [Htrace _].
  pose proof (reachable_consistent _ Htrace) as Hc.
  split.
  - assert (Hknown : streamId ∈ ids (exec initial trace)).
    { rewrite exec_snoc, step_stop in Hs0. cbn in Hs0.
      apply elem_of_deactivate_ids in Hs0. by rewrite <- Hid0. }
    pose proof (pending_exec _ later streamId Hlater
                  (eq_rect_r (cancelled streamId)
                     (stop_cancels _ streamId Hc Hknown)
                     (exec_snoc initial trace (CallStop streamId)))) as Hle.
    assert (pending streamId (exec initial (trace ++ [CallStop streamId])) =
            pending streamId (exec initial trace)) as <-; [| lia].
    rewrite exec_snoc, step_stop. done.
  - apply list_elem_of_lookup in Hs0 as [i Hi0].
    destruct (accounting_from _ later i s0 (reachable_consistent _ Hstop)
                Hlater Hi0) as (s' & Hi' & Hsame & Hsent).
    rewrite <- exec_app in Hi'.
    assert (s = s') as ->.
    { eapply same_id_same_stream;
        [apply (ids_distinct _ (reachable_consistent _ Hf)) | done | |].
      - apply list_elem_of_lookup. eauto.
      - destruct Hsame as [-> _]. congruence. }
    by rewrite Hsent, Hid0.
Qed.

Lemma late_credits_are_bounded_witness :
  fresh_ids initial
    ([CallStart 5 "cause-1" (Some 1%Q) env1; TimerFires 1]
     ++ CallStop id1 :: [PaymentSettles 0 (paid 1700000002000)]) = true
  ∧ successCount id1
      (exec initial
         ([CallStart 5 "cause-1" (Some 1%Q) env1; TimerFires 1]
          ++ [CallStop id1]))
      [PaymentSettles 0 (paid 1700000002000)]
    ≤ pending id1
        (exec initial [CallStart 5 "cause-1" (Some 1%Q) env1; TimerFires 1]).
Proof.
  split; [done |].
  apply (late_credits_are_bounded
           [CallStart 5 "cause-1" (Some 1%Q) env1; TimerFires 1]
           [PaymentSettles 0 (paid 1700000002000)] id1
           {| id := id1; amount := 5; interval := 1; recipient := "cause-1";
              isActive := false; totalSent := 0; startTime := 1700000000000;
              intervalId := Some 1%positive |}
           {| id := id1; amount := 5; interval := 1; recipient := "cause-1";
              isActive := false; totalSent := 5;
              startTime := 1700000000000; intervalId := Some 1%positive |});
    try done; vm_compute; apply list_elem_of_singleton; reflexivity.
Defined.

(** Two payments that settle after the stop of a stream of the amount
    0.1 that was paid eight times: the [totalSent] is the sum of ten
    additions, below 1. *)
Example two_late_credits_of_a_tenth :
  let trace :=
    CallStart tenth "cause-1" (Some 10%Q) env1
    :: concat (replicate 8 (tick 1 (paid 1700000011000)))
    ++ [TimerFires 1; TimerFires 1] in
  let later :=
    [PaymentSettles 0 (paid 1700000012000);
     PaymentSettles 0 (paid 1700000013000)] in
  totalSent <$> activeStreams (exec initial (trace ++ CallStop id1 :: later))
  = [(9007199254740991 # 9007199254740992)%Q].
Proof. by vm_compute. Qed.

End LateCredits.

(** ** The active streams and their total *)

Section ActiveStreams.

Import Scenario Ledger.

Lemma filter_deactivate sid (l : list X402Stream) :
  filter (λ s, isActive s = true) (deactivate sid l) =
  filter (λ s, id s ≠ sid) (filter (λ s, isActive s = true) l).
Proof.
  unfold deactivate. induction l as [| s l IH]; [done |].
  rewrite fmap_cons, !filter_cons, IH.
  destruct (decide (id s = sid)) as [Hid | Hid].
  - rewrite bool_decide_true by done.
    rewrite decide_False by done.
    destruct (decide (isActive s = true)); [| done].
    rewrite filter_cons. by rewrite decide_False by (intros H; by apply H).
  - rewrite bool_decide_false by done.
    destruct (decide (isActive s = true)); [| done].
    rewrite filter_cons. by rewrite decide_True.
Qed.

Lemma filter_credit t (l : list X402Stream) :
  filter (λ s, isActive s = true) (credit t l) =
  credit t (filter (λ s, isActive s = true) l).
Proof.
  unfold credit. induction l as [| s l IH]; [done |].
  rewrite fmap_cons, !filter_cons, IH.
  assert (isActive
            (if bool_decide (id s = tk_streamId t)
             then with_totalSent (Binary64.add (totalSent s) (tk_amount t)) s
             else s) =
          isActive s) as Hact by by case_bool_decide.
  destruct (decide (isActive s = true)) as [Ha | Ha].
  - by rewrite decide_True by congruence.
  - by rewrite decide_False by congruence.
Qed.

Lemma amounts_credit t (l : list X402Stream) :
  amount <$> credit t l = amount <$> l.
Proof.
  unfold credit. rewrite <- list_fmap_compose.
  apply list_fmap_ext. intros ? s _. cbn. by case_bool_decide.
Qed.

Lemma ids_credit t (l : list X402Stream) : id <$> credit t l = id <$> l.
Proof.
  unfold credit. rewrite <- list_fmap_compose.
  apply list_fmap_ext. intros ? s _. cbn. by case_bool_decide.
Qed.

Lemma getAllStreams_stop w sid :
  getAllStreams (step w (CallStop sid)) =
  filter (λ s, id s ≠ sid) (getAllStreams w).
Proof.
  unfold getAllStreams. rewrite step_stop. cbn [activeStreams].
  apply filter_deactivate.
Qed.

Lemma getAllStreams_timer w k :
  getAllStreams (step w (TimerFires k)) = getAllStreams w.
Proof. rewrite step_timer. by destruct (timers w !! k). Qed.

Lemma getAllStreams_settle w i o :
  amount <$> getAllStreams (step w (PaymentSettles i o)) =
  amount <$> getAllStreams w.
Proof.
  unfold getAllStreams. rewrite step_settle.
  destruct (inflight w !! i) as [t |]; [| done].
  destruct o; cbn [activeStreams]; [| done].
  by rewrite filter_credit, amounts_credit.
Qed.

(** X4: which streams [getAllStreams] lists changes by
    [startPaymentStream] and [stopPaymentStream] only.
    [stopPaymentStream] takes the streams with the id out of the listed
    ones and leaves the others as they are and in their order; a timer
    that fires changes nothing of the list; a payment that settles, paid
    or failed, leaves the ids and the amounts of the listed streams as
    they are. *)
Theorem active_list_changes_by_start_and_stop (w : World) :
  (∀ streamId,
     getAllStreams (world (stopPaymentStream streamId w)) =
     filter (λ s, id s ≠ streamId) (getAllStreams w))
  ∧ (∀ k, getAllStreams (step w (TimerFires k)) = getAllStreams w)
  ∧ (∀ i o,
       id <$> getAllStreams (step w (PaymentSettles i o)) =
         id <$> getAllStreams w
       ∧ amount <$> getAllStreams (step w (PaymentSettles i o)) =
         amount <$> getAllStreams w).
Proof.
  split; [| split].
  - intros sid.
    change (world (stopPaymentStream sid w)) with (step w (CallStop sid)).
    unfold getAllStreams. rewrite step_stop. cbn [activeStreams].
    apply filter_deactivate.
  - intros k. rewrite step_timer. by destruct (timers w !! k).
  - intros i o. unfold getAllStreams. rewrite step_settle.
    destruct (inflight w !! i) as [t |]; [| done].
    destruct o; cbn [activeStreams]; [| done].
    by rewrite filter_credit, ids_credit, amounts_credit.
Qed.

Lemma filter_all {A} (P : A → Prop) `{!∀ x, Decision (P x)} (l : list A) :
  (∀ x, x ∈ l → P x) → filter P l = l.
Proof.
  induction l as [| x l IH]; intros Hl; [done |].
  rewrite filter_cons, decide_True by (apply Hl; left).
  rewrite IH; [done |]. intros y Hy. apply Hl. by right.
Qed.

Lemma total_snoc (l : list X402Stream) s :
  total (l ++ [s]) = Binary64.add (total l) (amount s).
Proof. unfold total. by rewrite foldl_snoc. Qed.

Lemma total_amounts (l l' : list X402Stream) :
  amount <$> l = amount <$> l' → total l = total l'.
Proof.
  intros Heq. unfold total.
  rewrite <- (foldl_fmap (λ total a, Binary64.add total a) 0%Q l amount).
  rewrite <- (foldl_fmap (λ total a, Binary64.add total a) 0%Q l' amount).
  by rewrite Heq.
Qed.

Lemma getAllStreams_start w a r iv env :
  getAllStreams (step w (CallStart a r iv env)) =
  getAllStreams w ++ [new_stream a r iv env (nextIntervalId w)].
Proof.
  unfold getAllStreams. rewrite step_start. cbn [activeStreams].
  rewrite filter_app, filter_cons. cbn [new_stream isActive].
  by rewrite decide_True by done.
Qed.

(** X5: the total that [getTotalStreamAmount] returns changes by
    [startPaymentStream] and [stopPaymentStream] only.
    [startPaymentStream] adds the amount of the new stream to the total,
    with the operator [+]; [stopPaymentStream] gives the total of the
    listed streams without those of the id, summed anew, and so changes
    nothing when no listed stream has the id; a timer that fires or a
    payment that settles leaves the total as it is; and starting a
    stream under a new id and stopping it at once gives the total
    back. *)
Theorem total_changes_by_start_and_stop (w : World) :
  (∀ a r iv env,
     getTotalStreamAmount (step w (CallStart a r iv env)) =
     Binary64.add (getTotalStreamAmount w) a)
  ∧ (∀ streamId,
       getTotalStreamAmount (step w (CallStop streamId)) =
       total (filter (λ s, id s ≠ streamId) (getAllStreams w)))
  ∧ (∀ streamId,
       (∀ s, s ∈ getAllStreams w → id s ≠ streamId) →
       getTotalStreamAmount (step w (CallStop streamId)) =
       getTotalStreamAmount w)
  ∧ (∀ k, getTotalStreamAmount (step w (TimerFires k)) =
          getTotalStreamAmount w)
  ∧ (∀ i o,
       getTotalStreamAmount (step w (PaymentSettles i o)) =
       getTotalStreamAmount w)
  ∧ (∀ a r iv env,
       admissible w (CallStart a r iv env) = true →
       getTotalStreamAmount
         (exec w
            [CallStart a r iv env;
             CallStop (streamId_of (now_id env) (rnd env))]) =
       getTotalStreamAmount w).
Proof.
  assert (Htotal : ∀ w', getTotalStreamAmount w' = total (getAllStreams w'))
    by done.
  pose proof getAllStreams_stop as Hstop.
  split; [| split; [| split; [| split; [| split]]]].
  - intros a r iv env. by rewrite !Htotal, getAllStreams_start, total_snoc.
  - intros sid. by rewrite Htotal, Hstop.
  - intros sid Hsid. by rewrite !Htotal, Hstop, filter_all.
  - intros k. by rewrite !Htotal, getAllStreams_timer.
  - intros i o. rewrite !Htotal. apply total_amounts, getAllStreams_settle.
  - intros a r iv env Hadm. apply bool_decide_eq_true in Hadm.
    change (exec w [CallStart a r iv env;
                    CallStop (streamId_of (now_id env) (rnd env))])
      with (step (step w (CallStart a r iv env))
              (CallStop (streamId_of (now_id env) (rnd env)))).
    rewrite !Htotal, Hstop, getAllStreams_start, filter_app, filter_cons.
    cbn [new_stream id]. rewrite decide_False by (intros H; by apply H).
    rewrite app_nil_r, filter_all; [done |].
    intros s Hs Hid. apply Hadm. unfold ids. apply list_elem_of_fmap.
    exists s. split; [done |]. unfold getAllStreams in Hs.
    by apply list_elem_of_filter in Hs as [_ Hs].
Qed.

Lemma total_changes_by_start_and_stop_witness :
  admissible (exec initial paid_once)
    (CallStart 3 "cause-2" (Some 10%Q) env2) = true
  ∧ getTotalStreamAmount
      (exec (exec initial paid_once)
         [CallStart 3 "cause-2" (Some 10%Q) env2; CallStop id2]) =
    getTotalStreamAmount (exec initial paid_once).
Proof.
  assert (Hadm : admissible (exec initial paid_once)
                   (CallStart 3 "cause-2" (Some 10%Q) env2) = true)
    by (vm_compute; reflexivity).
  split; [exact Hadm |].
  destruct (total_changes_by_start_and_stop (exec initial paid_once))
    as (_ & _ & _ & _ & _ & Hboth).
  exact (Hboth 3%Q "cause-2" (Some 10%Q) env2 Hadm).
Defined.

(** [stopPaymentStream] does not take the amount off the total: with
    streams of the amounts 0.1 and 0.2 the total is 0.30000000000000004,
    after the stop of the second it is 0.1, and the total less 0.2 is
    0.10000000000000003. *)
Example stop_sums_anew :
  let w := exec initial tenth_and_fifth in
  getTotalStreamAmount w = Binary64.add tenth fifth
  ∧ getTotalStreamAmount w =
    (1351079888211149 # 4503599627370496)%Q
  ∧ getTotalStreamAmount (step w (CallStop id2)) = tenth
  ∧ (tenth < Binary64.round (getTotalStreamAmount w - fifth))%Q.
Proof. by vm_compute. Qed.

End ActiveStreams.

(** ** Statistics of the streams of a run *)

Section RunStats.

Import JsNumber Scenario Ledger.

(** X6: in every world that a sequence of events with distinct stream
    ids reaches, [getStreamStats] called with the id of a stream of the
    list returns the statistics of that very stream, and for a stream
    whose amount is a whole number other than zero, as long as the amount
    times the number of its successful ticks is below [2^53],
    [totalSent] is that product and [actualPayments] is the number of
    the successful ticks. *)
Theorem stats_count_the_successful_ticks
    (trace : list Event) (s : X402Stream) (now : Z) (a : Z) :
  fresh_ids initial trace = true →
  s ∈ activeStreams (exec initial trace) →
  (amount s == inject_Z a)%Q → a ≠ 0%Z →
  (Z.abs a * Z.of_nat (successCount (id s) initial trace) < 2 ^ 53)%Z →
  ∃ st actual,
    getStreamStats (id s) now (exec initial trace) = Some st
    ∧ st_streamId st = id s
    ∧ st_isActive st = isActive s
    ∧ st_totalSent st = totalSent s
    ∧ st_totalSent st =
      inject_Z (a * Z.of_nat (successCount (id s) initial trace))
    ∧ st_actualPayments st = Num actual
    ∧ (actual ==
       inject_Z (Z.of_nat (successCount (id s) initial trace)))%Q.
Proof.
  intros Hf Hs Ham Ha Hn. pose proof (reachable_consistent trace Hf) as Hc.
  pose proof (find_has_id _ s (ids_distinct _ Hc) Hs) as Hfind.
  assert (Hsent : totalSent s =
                  inject_Z (a * Z.of_nat (successCount (id s) initial trace))).
  { rewrite (accounting trace Hf s Hs). by apply credits_Z. }
  assert (Hnz : ¬ (amount s == 0)%Q).
  { rewrite Ham. change 0%Q with (inject_Z 0). by rewrite inject_Z_injective. }
  unfold getStreamStats. rewrite Hfind.
  eexists _, _. split; [reflexivity |].
  cbn [st_streamId st_totalSent st_isActive st_actualPayments].
  do 4 (split; [done |]).
  split; [by apply div_finite_nonzero |].
  rewrite Hsent, inject_Z_mult, Ham. field.
  change 0%Q with (inject_Z 0). by rewrite inject_Z_injective.
Qed.

Lemma stats_count_the_successful_ticks_witness :
  fresh_ids initial second_tick_fails = true
  ∧ ∃ st actual,
      getStreamStats id1 1700000020000 (exec initial second_tick_fails)
        = Some st
      ∧ st_totalSent st = 20%Q
      ∧ st_actualPayments st = Num actual
      ∧ (actual == 2)%Q.
Proof.
  split; [done |].
  assert (Hcount : successCount id1 initial second_tick_fails = 2)
    by (vm_compute; reflexivity).
  destruct (stats_count_the_successful_ticks second_tick_fails
              {| id := id1; amount := 10; interval := 5;
                 recipient := "cause-2"; isActive := true;
                 totalSent := 20; startTime := 1700000000000;
                 intervalId := Some 1%positive |}
              1700000020000 10 eq_refl)
    as (st & actual & Hst & _ & _ & Hsent & _ & Hact & Hcount').
  - vm_compute. apply list_elem_of_singleton. reflexivity.
  - reflexivity.
  - discriminate.
  - cbn [id]. rewrite Hcount. reflexivity.
  - exists st, actual. split; [exact Hst |]. split; [exact Hsent |].
    split; [exact Hact |]. cbn [id] in Hcount'. by rewrite Hcount' , Hcount.
Defined.

(** For other amounts [actualPayments] is not the number of the
    successful ticks: after three paid ticks of a stream of the amount
    0.1 the [totalSent] is 0.30000000000000004, and its quotient by the
    amount is above 3. *)
Example three_tenths_are_more_than_three :
  let trace :=
    CallStart tenth "cause-1" (Some 10%Q) env1
    :: concat (replicate 3 (tick 1 (paid 1700000011000))) in
  ∃ st actual,
    getStreamStats id1 1700000035000 (exec initial trace) = Some st
    ∧ successCount id1 initial trace = 3
    ∧ st_totalSent st = (1351079888211149 # 4503599627370496)%Q
    ∧ st_actualPayments st = Num actual ∧ (3 < actual)%Q.
Proof.
  eexists _, _. split; [vm_compute; reflexivity |]. by vm_compute.
Qed.

(** X7: a stream of the amount zero, which [startPaymentStream]
    accepts, has no number of payments: in every world that a sequence of
    events with distinct stream ids reaches, [getStreamStats] returns
    [NaN] as its [actualPayments], and as its [successRate] [NaN] when
    [expectedPayments] is positive and 0 otherwise. *)
Theorem zero_amount_stream_has_NaN_stats
    (trace : list Event) (s : X402Stream) (now : Z) :
  fresh_ids initial trace = true →
  s ∈ activeStreams (exec initial trace) →
  (amount s == 0)%Q →
  ∃ st,
    getStreamStats (id s) now (exec initial trace) = Some st
    ∧ st_actualPayments st = NaN
    ∧ st_successRate st =
      (if gt (st_expectedPayments st) (Num 0) then NaN else Num 0).
Proof.
  intros Hf Hs Ham. pose proof (reachable_consistent trace Hf) as Hc.
  pose proof (find_has_id _ s (ids_distinct _ Hc) Hs) as Hfind.
  assert (Hsent : (totalSent s == 0)%Q).
  { rewrite (accounting trace Hf s Hs).
    induction (successCount (id s) initial trace) as [| n IH]; [done |].
    rewrite credits_succ. unfold Binary64.add.
    rewrite round_zero; [done |]. rewrite IH, Ham. ring. }
  unfold getStreamStats. rewrite Hfind.
  eexists. split; [reflexivity |].
  cbn [st_actualPayments st_successRate st_expectedPayments].
  assert (div_finite (totalSent s) (amount s) = NaN) as ->.
  { unfold div_finite, Qis_zero.
    by rewrite (Qeq_eq_bool _ _ Ham), (Qeq_eq_bool _ _ Hsent). }
  split; [done |]. set (E := floor _).
  destruct (gt E (Num 0)); [| done]. by destruct E.
Qed.

Lemma zero_amount_stream_has_NaN_stats_witness :
  fresh_ids initial
    (CallStart 0 "cause-1" (Some 10%Q) env1 :: tick 1 (paid 1700000011000))
    = true
  ∧ ∃ st,
      getStreamStats id1 1700000012000
        (exec initial
           (CallStart 0 "cause-1" (Some 10%Q) env1
            :: tick 1 (paid 1700000011000))) = Some st
      ∧ st_actualPayments st = NaN ∧ st_successRate st = NaN.
Proof.
  split; [done |].
  destruct (zero_amount_stream_has_NaN_stats
              (CallStart 0 "cause-1" (Some 10%Q) env1
               :: tick 1 (paid 1700000011000))
              {| id := id1; amount := 0; interval := 10;
                 recipient := "cause-1"; isActive := true;
                 totalSent := 0 + 0; startTime := 1700000000000;
                 intervalId := Some 1%positive |}
              1700000012000 eq_refl)
    as (st & Hst & Hact & Hrate).
  - vm_compute. apply list_elem_of_singleton. reflexivity.
  - reflexivity.
  - exists st. split; [exact Hst |]. split; [exact Hact |].
    rewrite Hrate. vm_compute in Hst. injection Hst as <-. reflexivity.
Defined.

Lemma Qis_neg_inject_Z (z : Z) : Qis_neg (inject_Z z) = bool_decide (z < 0)%Z.
Proof.
  unfold Qis_neg. destruct (Qle_bool 0 (inject_Z z)) eqn:Hle; cbn.
  - apply Qle_bool_iff in Hle. change 0%Q with (inject_Z 0) in Hle.
    rewrite <- Zle_Qle in Hle. by rewrite bool_decide_false by lia.
  - rewrite bool_decide_true; [done |].
    destruct (decide (z < 0)%Z) as [| Hn]; [done |].
    assert (Qle_bool 0 (inject_Z z) = true); [| congruence].
    apply Qle_bool_iff. change 0%Q with (inject_Z 0).
    rewrite <- Zle_Qle. lia.
Qed.

(** X8: for a stream of the interval zero, which [startPaymentStream]
    accepts, [getStreamStats] divides by zero: [expectedPayments] is
    [Infinity] when [Date.now()] is after the start of the stream,
    [-Infinity] when it is before and [NaN] when it is the start, and the
    [successRate] of a stream whose amount is not zero is 0 at every
    time, however many payments succeeded. *)
Theorem zero_interval_stream_has_infinite_stats
    (w : World) (streamId : string) (now : Z) (s : X402Stream) :
  find (has_id streamId) (activeStreams w) = Some s →
  (interval s == 0)%Q → ¬ (amount s == 0)%Q →
  ∃ st rate,
    getStreamStats streamId now w = Some st
    ∧ st_expectedPayments st =
      (if decide (startTime s < now)%Z then PosInf
       else if decide (now < startTime s)%Z then NegInf else NaN)
    ∧ st_actualPayments st = Num (totalSent s / amount s)
    ∧ st_successRate st = Num rate ∧ (rate == 0)%Q.
Proof.
  intros Hfind Hiv Ham. unfold getStreamStats. rewrite Hfind.
  assert (Hexp :
    floor (div_finite (inject_Z (now - startTime s)) (interval s * 1000)) =
    (if decide (startTime s < now)%Z then PosInf
     else if decide (now < startTime s)%Z then NegInf else NaN)).
  { unfold div_finite.
    assert (Qis_zero (interval s * 1000) = true) as ->.
    { apply Qeq_eq_bool. rewrite Hiv. ring. }
    rewrite Qis_neg_inject_Z.
    assert (Qis_zero (inject_Z (now - startTime s)) =
            bool_decide (now - startTime s = 0)%Z) as ->.
    { unfold Qis_zero. destruct (decide (now - startTime s = 0)%Z) as [-> | Hn].
      - by rewrite bool_decide_true.
      - rewrite bool_decide_false by done.
        destruct (Qeq_bool _ 0) eqn:Hz; [| done].
        apply Qeq_bool_iff in Hz. change 0%Q with (inject_Z 0) in Hz.
        rewrite inject_Z_injective in Hz. done. }
    repeat case_bool_decide; repeat case_decide; try lia; done. }
  eexists _, _. split; [reflexivity |].
  cbn [st_expectedPayments st_actualPayments st_successRate].
  rewrite Hexp, (div_finite_nonzero _ _ Ham).
  do 2 (split; [done |]).
  instantiate (1 := if decide (startTime s < now)%Z then (0 * 100)%Q else 0%Q).
  repeat case_decide; cbn; split; done.
Qed.

Lemma zero_interval_stream_has_infinite_stats_witness :
  ∃ st,
    getStreamStats id1 1700000002000
      (exec initial
         (CallStart 5 "cause-1" (Some 0%Q) env1
          :: tick 1 (paid 1700000001000))) = Some st
    ∧ st_expectedPayments st = PosInf
    ∧ st_actualPayments st = Num (5 / 5).
Proof.
  destruct (zero_interval_stream_has_infinite_stats
              (exec initial
                 (CallStart 5 "cause-1" (Some 0%Q) env1
                  :: tick 1 (paid 1700000001000)))
              id1 1700000002000
              {| id := id1; amount := 5; interval := 0;
                 recipient := "cause-1"; isActive := true;
                 totalSent := 0 + 5; startTime := 1700000000000;
                 intervalId := Some 1%positive |})
    as (st & rate & Hst & Hexp & Hact & _).
  - vm_compute. reflexivity.
  - reflexivity.
  - intros H. discriminate H.
  - exists st. split; [exact Hst |]. split; [exact Hexp | exact Hact].
Defined.

End RunStats.

(** ** The flag [isProcessing] *)

Section Processing.

Import Scenario.

Lemma processing_step w e :
  (isProcessing w = true → inflight w ≠ []) →
  isProcessing (step w e) = true → inflight (step w e) ≠ [].
Proof.
  intros Hw. destruct e as [a r iv env | sid | k | j o].
  - rewrite step_start. exact Hw.
  - rewrite step_stop. exact Hw.
  - rewrite step_timer. destruct (timers w !! k); [| exact Hw].
    cbn. intros _ Hnil. by apply app_eq_nil in Hnil as [_ Hnil].
  - rewrite step_settle. destruct (inflight w !! j); [| exact Hw]. done.
Qed.

(** X9: after every sequence of events, when [isProcessing] is true a
    payment of a tick is in flight; the converse fails, as the flag is
    one for all payments: when one of several payments in flight settles,
    the flag is false and the other payments are still in flight. *)
Theorem isProcessing_is_one_flag :
  (∀ trace, isProcessing (exec initial trace) = true →
            inflight (exec initial trace) ≠ [])
  ∧ (∀ w i o, i < length (inflight w) → 2 ≤ length (inflight w) →
       isProcessing (step w (PaymentSettles i o)) = false
       ∧ length (inflight (step w (PaymentSettles i o))) =
         length (inflight w) - 1).
Proof.
  split.
  - intros trace. induction trace as [| e trace IH] using rev_ind; [done |].
    rewrite exec_snoc. by apply processing_step.
  - intros w i o Hi Hlen. rewrite step_settle.
    apply lookup_lt_is_Some in Hi as [t Ht]. rewrite Ht. cbn.
    split; [done |]. rewrite length_delete by eauto. lia.
Qed.

Lemma isProcessing_is_one_flag_witness :
  isProcessing
    (exec initial (firstn 5 one_stream_fails)) = false
  ∧ length (inflight (exec initial (firstn 5 one_stream_fails))) = 1.
Proof.
  destruct (proj2 isProcessing_is_one_flag
              (exec initial (firstn 4 one_stream_fails)) 0 Threw)
    as [Hflag Hlen]; [vm_compute; lia | vm_compute; lia |].
  split; [exact Hflag | exact Hlen].
Defined.

End Processing.

(** ** The registry of the socket service *)

Section Registry.

Import SocketService Server.

Lemma map_get_None k reg : map_get k reg = None ↔ k ∉ keys reg.
Proof.
  unfold keys. induction reg as [| [k' v'] reg IH]; cbn.
  - split; [intros _; apply not_elem_of_nil | done].
  - rewrite not_elem_of_cons. case_bool_decide as Hk.
    + split; [done | intros [Hne _]; by subst].
    + rewrite IH. split; [by split | by intros [_ ?]].
Qed.

Lemma map_get_elem_of k d reg : map_get k reg = Some d → (k, d) ∈ reg.
Proof.
  induction reg as [| [k' v'] reg IH]; cbn; [done |].
  case_bool_decide as Hk.
  - intros [= ->]. subst k'. by left.
  - intros Hget. right. by apply IH.
Qed.

Lemma keys_map_set k v reg :
  keys (map_set k v reg) =
  if decide (k ∈ keys reg) then keys reg else keys reg ++ [k].
Proof.
  unfold keys. induction reg as [| [k' v'] reg IH]; cbn.
  - by rewrite decide_False by apply not_elem_of_nil.
  - case_bool_decide as Hk; cbn.
    + subst k'. by rewrite decide_True by left.
    + rewrite IH. destruct (decide (k ∈ reg.*1)) as [Hin | Hnin].
      * by rewrite decide_True by (by right).
      * rewrite decide_False; [done |].
        rewrite not_elem_of_cons. by split.
Qed.

Lemma elem_of_map_set k v reg k0 d :
  (k0, d) ∈ map_set k v reg → (k0 = k ∧ d = v) ∨ (k0, d) ∈ reg.
Proof.
  induction reg as [| [k' v'] reg IH]; cbn.
  - intros [= -> ->]%list_elem_of_singleton. by left.
  - case_bool_decide as Hk.
    + intros [[= -> ->] | Hin]%elem_of_cons; [by left |].
      right. by right.
    + intros [[= -> ->] | Hin]%elem_of_cons; [right; by left |].
      destruct (IH Hin) as [? | ?]; [by left | right; by right].
Qed.

Lemma elem_of_map_delete k reg k0 d :
  (k0, d) ∈ map_delete k reg → k0 ≠ k ∧ (k0, d) ∈ reg.
Proof.
  induction reg as [| [k' v'] reg IH]; cbn; [by intros ?%elem_of_nil |].
  case_bool_decide as Hk.
  - intros Hin. destruct (IH Hin). split; [done | by right].
  - intros [[= -> ->] | Hin]%elem_of_cons; [split; [done | by left] |].
    destruct (IH Hin). split; [done | by right].
Qed.

Lemma keys_map_delete k reg :
  keys (map_delete k reg) = filter (λ k', k' ≠ k) (keys reg).
Proof.
  unfold keys. induction reg as [| [k' v'] reg IH]; [done |].
  cbn [map_delete]. rewrite (fmap_cons fst (k', v')), filter_cons.
  cbn [fst]. case_bool_decide as Hk.
  - by rewrite decide_False by (intros H; by apply H).
  - rewrite decide_True by done. by rewrite fmap_cons, IH.
Qed.

Lemma map_delete_set_fresh k v reg :
  map_get k reg = None → map_delete k (map_set k v reg) = reg.
Proof.
  induction reg as [| [k' v'] reg IH]; cbn.
  - by rewrite bool_decide_true.
  - case_bool_decide as Hk; [done |]. intros Hget. cbn.
    rewrite bool_decide_false by done. by rewrite IH.
Qed.

Lemma well_kept_handle socket e reg :
  well_kept reg → well_kept (handle socket e reg).1.
Proof.
  intros [Hnd Hreg].
  destruct e as [| sid donor rcp amt cause now | sid | | |]; cbn;
    try by split.
  - split.
    + rewrite keys_map_set. case_decide; [done |].
      apply NoDup_app. split; [done |]. split; [| apply NoDup_singleton].
      by intros k Hk ->%list_elem_of_singleton.
    + intros k d0 [[-> ->] | Hin]%elem_of_map_set; [done | by apply Hreg].
  - destruct (map_get sid reg); cbn; [| by split]. split.
    + rewrite keys_map_delete. by apply NoDup_filter.
    + intros k d0 [_ Hin]%elem_of_map_delete. by apply Hreg.
Qed.

Lemma well_kept_serve reg events :
  well_kept reg → well_kept (serve reg events).1.
Proof.
  revert reg. induction events as [| [socket e] events IH]; intros reg Hreg;
    [done |].
  cbn. by apply IH, well_kept_handle.
Qed.

(** X12: after every sequence of events of the clients, every entry of
    the registry of the socket service is an active stream registered
    under its own id, no id is registered twice, and the snapshot that a
    connecting client receives holds active streams only: a stream that
    was stopped is in the registry no more, and the status [paused] never
    occurs. *)
Theorem registry_holds_active_streams
    (events : list (string * ClientEvent)) :
  NoDup (keys (serve [] events).1)
  ∧ (∀ k d, map_get k (serve [] events).1 = Some d →
       id d = k ∧ status d = active)
  ∧ (∀ d, d ∈ map_values (serve [] events).1 → status d = active).
Proof.
  assert (Hkept : well_kept (serve [] events).1).
  { apply well_kept_serve. split; [constructor |].
    intros k d Hin. by apply elem_of_nil in Hin. }
  destruct Hkept as [Hnd Hreg]. split; [done |]. split.
  - intros k d Hget. by apply Hreg, map_get_elem_of.
  - unfold map_values. intros d ([k d'] & -> & Hin)%list_elem_of_fmap.
    by apply (Hreg k d').
Qed.

Lemma registry_holds_active_streams_witness :
  map_get "stream-2" (serve [] two_clients).1 =
    Some (started "stream-2" "0xd0" "cause-2" 3 "Education" 1700000001000)
  ∧ status (started "stream-2" "0xd0" "cause-2" 3 "Education" 1700000001000)
    = active.
Proof.
  split; [reflexivity |].
  apply (proj1 (proj2 (registry_holds_active_streams two_clients))
           "stream-2"). reflexivity.
Defined.

(** X13: a stream that one client starts under an id that is not
    registered can be stopped by any client, the one that started it or
    another: the stop is acknowledged to the client that asked for it,
    the stream that was started is broadcast with the status
    [completed], and the registry is again what it was before the
    start. *)
Theorem start_then_stop_restores_registry
    (reg : Registry) (starter stopper streamId donor recipient : string)
    (amount : Q) (cause : string) (now : Z) :
  map_get streamId reg = None →
  let started_reg :=
    (handle starter
       (startDonationStream streamId donor recipient amount cause now)
       reg).1 in
  map_get streamId started_reg =
    Some (started streamId donor recipient amount cause now)
  ∧ handle stopper (stopDonationStream streamId) started_reg =
    (reg,
     [io_emit
        (donationStreamCompleted
           (as_completed
              (started streamId donor recipient amount cause now)));
      socket_emit stopper (streamStopped streamId completed)]).
Proof.
  intros Hget. cbn zeta. cbn [handle fst].
  fold (started streamId donor recipient amount cause now).
  rewrite map_get_set_eq. split; [done |].
  by rewrite map_delete_set_fresh.
Qed.

Lemma start_then_stop_restores_registry_witness :
  map_get "stream-9" Scenario.one_donation = None
  ∧ (handle "socket-2" (stopDonationStream "stream-9")
       (handle "socket-1"
          (startDonationStream "stream-9" "0xd1" "cause-3" 4 "Education"
             1700000005000)
          Scenario.one_donation).1).1 = Scenario.one_donation.
Proof.
  split; [reflexivity |].
  destruct (start_then_stop_restores_registry Scenario.one_donation
              "socket-1" "socket-2" "stream-9" "0xd1" "cause-3" 4
              "Education" 1700000005000 eq_refl) as [_ Hstop].
  by rewrite Hstop.
Defined.

(** X14: what [startDonationStream] does to the registry: the new stream
    is what the id gives afterwards, with the status [active] whatever
    the client sent, every other id gives what it gave, and the order of
    the ids is kept, with a new id at the end; so a second start under a
    registered id replaces the stream where it stands and the registry
    does not grow. *)
Theorem start_registers_in_place
    (reg : Registry) (socket streamId donor recipient : string)
    (amount : Q) (cause : string) (now : Z) :
  let reg' :=
    (handle socket
       (startDonationStream streamId donor recipient amount cause now)
       reg).1 in
  map_get streamId reg' =
    Some (started streamId donor recipient amount cause now)
  ∧ (∀ k, k ≠ streamId → map_get k reg' = map_get k reg)
  ∧ keys reg' =
    (if decide (streamId ∈ keys reg) then keys reg
     else keys reg ++ [streamId])
  ∧ (streamId ∈ keys reg → length reg' = length reg).
Proof.
  cbn zeta. cbn [handle fst].
  fold (started streamId donor recipient amount cause now).
  split; [apply map_get_set_eq |]. split.
  - intros k Hk. by apply map_get_set_ne.
  - split; [apply keys_map_set |].
    intros Hin. pose proof (keys_map_set streamId
      (started streamId donor recipient amount cause now) reg) as Hkeys.
    rewrite decide_True in Hkeys by done.
    apply (f_equal length) in Hkeys. unfold keys in Hkeys.
    by rewrite !length_fmap in Hkeys.
Qed.

Lemma start_registers_in_place_witness :
  ("stream-1" ∈ keys Scenario.one_donation)
  ∧ length
      (handle "socket-2"
         (startDonationStream "stream-1" "0xd1" "cause-3" 4 "Education"
            1700000005000)
         Scenario.one_donation).1 = length Scenario.one_donation.
Proof.
  assert (Hin : "stream-1" ∈ keys Scenario.one_donation)
    by (vm_compute; apply list_elem_of_singleton; reflexivity).
  split; [exact Hin |].
  by apply (start_registers_in_place Scenario.one_donation "socket-2"
              "stream-1" "0xd1" "cause-3" 4 "Education" 1700000005000).
Defined.

(** X15: what the handlers send: a message to one client goes to the
    client whose event is handled and to no other; every change of the
    registry is broadcast to all clients; and a client that connects or
    disconnects changes nothing and causes no broadcast. *)
Theorem handlers_emit_to_sender_or_all
    (socket : string) (e : ClientEvent) (reg : Registry) :
  (∀ target m, socket_emit target m ∈ (handle socket e reg).2 →
     target = socket)
  ∧ ((handle socket e reg).1 ≠ reg →
     ∃ m, io_emit m ∈ (handle socket e reg).2)
  ∧ ((e = connection ∨ ∃ reason, e = disconnect reason) →
     (handle socket e reg).1 = reg
     ∧ ∀ m, io_emit m ∉ (handle socket e reg).2).
Proof.
  assert (Hmember : ∀ (x : Emit) l, x ∈ l → In x l)
    by (intros x l; apply list_elem_of_In).
  split; [| split].
  - intros target m Hin. apply Hmember in Hin.
    destruct e as [| sid donor rcp amt cause now | sid | | |];
      cbn in Hin; try destruct (map_get sid reg); cbn in Hin;
      intuition congruence.
  - destruct e as [| sid donor rcp amt cause now | sid | | |]; cbn;
      try destruct (map_get sid reg); cbn; try done;
      intros _; eexists; left.
  - intros [-> | [reason ->]]; cbn; (split; [done |]);
      intros m Hin; apply Hmember in Hin; cbn in Hin;
      intuition congruence.
Qed.

Lemma handlers_emit_to_sender_or_all_witness :
  (handle "socket-1" (stopDonationStream "stream-1") Scenario.one_donation).1
    ≠ Scenario.one_donation
  ∧ ∃ m, io_emit m ∈
      (handle "socket-1" (stopDonationStream "stream-1")
         Scenario.one_donation).2.
Proof.
  assert (Hchanged :
    (handle "socket-1" (stopDonationStream "stream-1")
       Scenario.one_donation).1 ≠ Scenario.one_donation)
    by (vm_compute; discriminate).
  split; [exact Hchanged |].
  exact (proj1 (proj2 (handlers_emit_to_sender_or_all "socket-1"
                         (stopDonationStream "stream-1")
                         Scenario.one_donation)) Hchanged).
Defined.

End Registry.

(** ** The payments of the ticks *)

Section Payments.

Import Scenario Ledger.

Lemma paying_step w e :
  consistent w → ticking w → paying w → paying (step w e).
Proof.
  intros Hc Ht Hp t [Hin | (k & iv & -> & Hk & ->)]%step_inflight.
  - destruct (Hp t Hin) as (s & [i Hi]%list_elem_of_lookup & Hcb).
    destruct (step_lookup w e i s Hi) as (s' & Hi' & Hsame & _).
    exists s'. split; [apply list_elem_of_lookup; eauto |].
    by rewrite (timer_of_same s' s Hsame).
  - destruct (timers_owned w Hc k iv Hk) as (s & (Hs & _) & Hsk).
    assert (Hiv : iv = timer_of s).
    { destruct (isActive s) eqn:Hact.
      - destruct (Ht s Hs Hact) as (k' & Hk' & Htimer). congruence.
      - rewrite (stopped_cleared w Hc s k Hs Hact Hsk) in Hk. done. }
    exists s. split; [| by rewrite Hiv].
    rewrite step_timer, Hk. done.
Qed.

Lemma paying_exec trace :
  fresh_ids initial trace = true →
  ticking (exec initial trace) ∧ paying (exec initial trace).
Proof.
  induction trace as [| e trace IH] using rev_ind.
  { intros _. split; [intros s Hs | intros t Ht]; by apply elem_of_nil in Hs
      || by apply elem_of_nil in Ht. }
  rewrite fresh_ids_app. intros [Hf He]%andb_true_iff.
  cbn in He. rewrite andb_true_r in He.
  destruct (IH Hf) as [Ht Hp].
  pose proof (reachable_consistent trace Hf) as Hc.
  rewrite exec_snoc. split; [by apply ticking_step | by apply paying_step].
Qed.

(** X16: in every world that a sequence of events with distinct stream
    ids reaches, every payment in flight was requested for a stream of
    the list: the request that the tick gave to [processPayment] carries
    the amount and the recipient of that stream, the currency INR, and
    the id of the stream as [streamId] and in the memo. *)
Theorem payments_are_for_their_stream (trace : list Event) (t : Tick) :
  fresh_ids initial trace = true →
  t ∈ inflight (exec initial trace) →
  ∃ s, s ∈ activeStreams (exec initial trace)
    ∧ tk_streamId t = id s
    ∧ tick_request t = request_of s.
Proof.
  intros Hf Ht. destruct (paying_exec trace Hf) as [_ Hp].
  destruct (Hp t Ht) as (s & Hs & <-). by exists s.
Qed.

Lemma payments_are_for_their_stream_witness :
  fresh_ids initial (firstn 4 one_stream_fails) = true
  ∧ ∃ s, s ∈ activeStreams (exec initial (firstn 4 one_stream_fails))
      ∧ id s = id2 ∧ amount s = 3%Q ∧ recipient s = "cause-2".
Proof.
  split; [done |].
  destruct (payments_are_for_their_stream (firstn 4 one_stream_fails)
              {| tk_amount := 3; tk_recipient := "cause-2";
                 tk_streamId := id2 |} eq_refl)
    as (s & Hs & Hid & Hreq).
  - vm_compute. apply list_elem_of_further, list_elem_of_singleton.
    reflexivity.
  - exists s. split; [exact Hs |]. cbn in Hid.
    injection Hreq as Ham Hrcp _. by rewrite <- Hid, <- Ham, <- Hrcp.
Defined.

End Payments.

(** ** The ids of the streams *)

Section Ids.

Import Stdlib.Strings.Ascii Ledger.

Lemma digit_no_underscore (x : N) : pretty_N_char x ≠ "_"%char.
Proof. unfold pretty_N_char. by repeat case_match. Qed.

Lemma pretty_N_go_no_underscore (x : N) (s : string) :
  no_underscore s → no_underscore (pretty_N_go x s).
Proof.
  revert s. induction (N.lt_wf_0 x) as [x _ IH]; intros s Hs.
  destruct (decide (x = 0)%N) as [-> | Hx]; [by rewrite pretty_N_go_0 |].
  rewrite pretty_N_go_step by lia.
  apply IH; [apply N.div_lt; lia |].
  split; [apply digit_no_underscore | done].
Qed.

Lemma pretty_N_no_underscore (x : N) : no_underscore (pretty x).
Proof.
  unfold pretty, pretty_N. case_decide; [by split |].
  by apply pretty_N_go_no_underscore.
Qed.

Lemma pretty_Z_no_underscore (z : Z) : no_underscore (pretty z).
Proof.
  destruct z as [| p | p]; unfold pretty, pretty_Z.
  - by split.
  - apply pretty_N_no_underscore.
  - split; [done |]. apply pretty_N_no_underscore.
Qed.

Lemma string_app_nil (s : string) : "" +:+ s = s.
Proof. reflexivity. Qed.

Lemma string_app_cons (c : ascii) (a s : string) :
  String c a +:+ s = String c (a +:+ s).
Proof. reflexivity. Qed.

(** The part of a string before its first underscore, and the part after
    it, are determined by the string. *)
Lemma split_at_underscore (a a' r r' : string) :
  no_underscore a → no_underscore a' →
  a +:+ "_" +:+ r = a' +:+ "_" +:+ r' → a = a' ∧ r = r'.
Proof.
  revert a'. induction a as [| c a IH]; intros [| c' a'] Ha Ha' Heq;
    rewrite ?string_app_cons, ?string_app_nil in Heq.
  - by injection Heq as ->.
  - injection Heq as <- _. by destruct Ha' as [[] _].
  - injection Heq as -> _. by destruct Ha as [[] _].
  - injection Heq as -> Heq. destruct Ha as [_ Ha], Ha' as [_ Ha'].
    destruct (IH a' Ha Ha' Heq) as [-> ->]. done.
Qed.

(** X17: the id that [startPaymentStream] makes determines the time and
    the random suffix that it was made of: two calls give the same id
    only when [Date.now()] and the suffix are the same in both, so the
    ids of a run are distinct as soon as no two calls share both. *)
Theorem streamId_of_inj (now now' : Z) (rnd rnd' : string) :
  streamId_of now rnd = streamId_of now' rnd' ↔ now = now' ∧ rnd = rnd'.
Proof.
  split; [| by intros [-> ->]].
  unfold streamId_of. intros Heq.
  apply (inj (String.append "stream_")) in Heq.
  apply split_at_underscore in Heq as [Hnow ->];
    [| apply pretty_Z_no_underscore..].
  split; [by apply (inj pretty) | done].
Qed.

End Ids.
